(** * Hackster report command: sanitizer, attachment filter, evidence session

    Shallow embedding of [src/cmds/core/report.py]:
    - [sanitize_message] (two [re.sub] passes with [re.IGNORECASE]),
    - the attachment filter of the list comprehension building
      [valid_images],
    - the [report] coroutine: the DM evidence loop and the two sends to the
      moderator channel, with the Discord calls as logged effects that the
      environment may let raise. *)

From Stdlib Require Import Ascii String DecimalString.
From Stdlib Require Import List Bool Arith Lia NArith.
Import ListNotations.

Set Implicit Arguments.

(** ** Text

    A Python [str] is modelled as the list of its UTF-8 bytes.  The source
    compares lower-cased text against the ASCII literals [done], [png],
    [jpg], [jpeg], [gif] and matches [@everyone] and [@here] under
    [re.IGNORECASE].  Outside ASCII no character matches a letter of the
    two tokens, and only U+0130 lower-cases to text with a letter of the
    literals: an [i] followed by U+0307, so never the [i] of a final
    [gif].  No byte of a multi-byte character is an ASCII byte.  So these
    comparisons come out as with the ASCII capitals folded and every other
    byte kept, which is what [lower_char] does. *)

Definition str := list ascii.

Definition lit (s : string) : str := list_ascii_of_string s.

Definition nl : str := [ascii_of_nat 10].

Definition lower_char (c : ascii) : ascii :=
  let n := nat_of_ascii c in
  if (65 <=? n) && (n <=? 90) then ascii_of_nat (n + 32) else c.

(** [s.lower()] *)
Definition lower (s : str) : str := map lower_char s.

Fixpoint str_eqb (a b : str) : bool :=
  match a, b with
  | [], [] => true
  | x :: a', y :: b' => Ascii.eqb x y && str_eqb a' b'
  | _, _ => false
  end.

(** [s.endswith(suffix)] *)
Definition endswith (s suffix : str) : bool :=
  (length suffix <=? length s)
  && str_eqb (skipn (length s - length suffix) s) suffix.

(** [str(n)] for a non-negative integer *)
Definition str_of_nat (n : nat) : str :=
  lit (NilEmpty.string_of_uint (Nat.to_uint n)).

Definition str_of_N (n : N) : str :=
  lit (NilEmpty.string_of_uint (N.to_uint n)).

(** [s.startswith(p)] *)
Fixpoint startswith (p s : str) : bool :=
  match p, s with
  | [], _ => true
  | x :: p', y :: s' => Ascii.eqb x y && startswith p' s'
  | _ :: _, [] => false
  end.

(** [needle in s] *)
Fixpoint contains (needle s : str) : bool :=
  startswith needle s
  || match s with
     | [] => false
     | _ :: s' => contains needle s'
     end.

(** ** Sanitizer *)

Module Re.

(** One character of a literal pattern against one character of the
    subject under [re.IGNORECASE]. *)
Definition char_match (p c : ascii) : bool :=
  Ascii.eqb (lower_char c) (lower_char p).

(** The literal pattern matches at the start of [s]. *)
Fixpoint match_here (pat s : str) : bool :=
  match pat, s with
  | [], _ => true
  | p :: pat', c :: s' => char_match p c && match_here pat' s'
  | _ :: _, [] => false
  end.

(** The scanner of [re.sub] for a non-empty literal pattern: it walks the
    subject from the left; [skip] counts the characters still to be
    consumed of a match that was just replaced, so matches are the
    leftmost non-overlapping ones. *)
Fixpoint scan (pat repl : str) (skip : nat) (s : str) : str :=
  match s with
  | [] => []
  | c :: s' =>
      match skip with
      | S k => scan pat repl k s'
      | O =>
          if match_here pat s
          then repl ++ scan pat repl (pred (length pat)) s'
          else c :: scan pat repl 0 s'
      end
  end.

(** [re.sub(pat, repl, s, flags=re.IGNORECASE)] *)
Definition sub (pat repl s : str) : str := scan pat repl 0 s.

End Re.

Definition at_everyone : str := lit "@everyone".
Definition at_here : str := lit "@here".
Definition bracket_everyone : str := lit "[at everyone]".
Definition bracket_here : str := lit "[at here]".

Definition sanitize_message (message : str) : str :=
  let message := Re.sub at_everyone bracket_everyone message in
  let message := Re.sub at_here bracket_here message in
  message.

(** ** Attachment filter *)

Record Attachment := mkAttachment {
  filename : str;
  size : N;
  url : str
}.

Definition allowed_extensions : list str :=
  [lit "png"; lit "jpg"; lit "jpeg"; lit "gif"].

(** The condition of the comprehension:
    [any(attachment.filename.lower().endswith(ext) for ext in [...])] *)
Definition is_acceptable (attachment : Attachment) : bool :=
  existsb (fun ext => endswith (lower (filename attachment)) ext)
          allowed_extensions.

(** [[attachment for attachment in attachments if ...]] *)
Definition valid_images_of (attachments : list Attachment) : list Attachment :=
  filter is_acceptable attachments.

(** ** Discord data *)

Record Member := mkMember {
  member_id : N;
  mention : str
}.

Record Channel := mkChannel {
  channel_id : N
}.

Record Message := mkMessage {
  author : Member;
  channel : Channel;
  content : str;
  attachments : list Attachment
}.

(** What [Attachment.to_file] hands back. *)
Record File := mkFile {
  file_filename : str;
  file_url : str
}.

Record EmbedField := mkField {
  field_name : str;
  field_value : str;
  field_inline : bool
}.

Record Embed := mkEmbed {
  title : str;
  description : str;
  color : N;
  timestamp : N;
  fields : list EmbedField;
  footer : str
}.

Record ApplicationContext := mkCtx {
  ctx_author : Member;
  guild_channels : list Channel
}.

Record Settings := mkSettings {
  REPORTS : N
}.

(** Discord objects compare by id. *)
Definition member_eqb (a b : Member) : bool := N.eqb (member_id a) (member_id b).
Definition channel_eqb (a b : Channel) : bool := N.eqb (channel_id a) (channel_id b).

(** [discord.utils.get(channels, id=...)] *)
Definition utils_get (channels : list Channel) (id : N) : option Channel :=
  find (fun ch => N.eqb (channel_id ch) id) channels.

Definition is_nil {A} (l : list A) : bool :=
  match l with [] => true | _ :: _ => false end.

(** ** Effects

    Every call into Discord or the logger is an entry of the trace, with
    its outcome.  The environment decides which calls raise ([faults], by
    position in the trace) and what arrives in the DM channel ([inbox]).

    [exn] holds the exceptions below [Exception], the ones the [except]
    clauses of the source can catch; a [BaseException] such as
    [asyncio.CancelledError] is outside the model. *)

Inductive exn :=
| Forbidden (detail : str)       (* discord.Forbidden *)
| TimeoutError                   (* asyncio.TimeoutError *)
| Failure (detail : str).        (* any other Exception *)

Definition str_of_exn (e : exn) : str :=
  match e with
  | Forbidden d => d
  | TimeoutError => []
  | Failure d => d
  end.

Inductive payload :=
| Content (text : str)
| EmbedOnly (embed : Embed)
| FilesOnly (files : list File).

Inductive call :=
| Defer                                   (* ctx.defer(ephemeral=True) *)
| Respond (text : str)                    (* ctx.respond(text, ephemeral=True) *)
| CreateDm (who : Member)                 (* ctx.author.create_dm() *)
| Send (ch : Channel) (p : payload)       (* channel.send(...) *)
| WaitFor                                 (* bot.wait_for("message", timeout=60.0, check=check) *)
| ToFile (a : Attachment)                 (* img.to_file() *)
| LoggerError (text : str).               (* logger.error(text, exc_info=True) *)

Inductive outcome :=
| Returned
| Raised (e : exn).

(** What happens in the DM channel and elsewhere while the bot waits: a
    message event, or the 60 second window of the pending [wait_for]
    running out.  The inbox is a finite list, the events of a reporter
    who stops writing at some point: an exhausted inbox is silence, so a
    wait on it times out.  A reporter who never stops is outside the
    model. *)
Inductive incoming :=
| Arrives (m : Message)
| WindowElapses.

Record World := mkWorld {
  inbox : list incoming;
  faults : nat -> call -> option exn;
  dm_of_author : Channel;
  clock : N;
  trace : list (call * outcome);
  images : list Attachment          (* the local list [images] of [report] *)
}.

(** The call [c] is added to the trace with its outcome. *)
Definition log (w : World) (c : call) (o : outcome) : World :=
  mkWorld (inbox w) (faults w) (dm_of_author w) (clock w)
          (trace w ++ [(c, o)]) (images w).

Definition with_inbox (w : World) (i : list incoming) : World :=
  mkWorld i (faults w) (dm_of_author w) (clock w) (trace w) (images w).

Definition with_images (w : World) (imgs : list Attachment) : World :=
  mkWorld (inbox w) (faults w) (dm_of_author w) (clock w) (trace w) imgs.

Inductive result (A : Type) :=
| Ret (a : A)
| Raise (e : exn).

Arguments Ret {A} a.
Arguments Raise {A} e.

Definition M (A : Type) : Type := World -> result A * World.

Definition ret {A} (a : A) : M A := fun w => (Ret a, w).

Definition raise {A} (e : exn) : M A := fun w => (Raise e, w).

Definition bind {A B} (m : M A) (k : A -> M B) : M B :=
  fun w =>
    match m w with
    | (Ret a, w') => k a w'
    | (Raise e, w') => (Raise e, w')
    end.

Declare Scope action_scope.
Delimit Scope action_scope with action.
Notation "x <- m ;; k" := (bind m (fun x => k))
  (at level 100, m at next level, right associativity) : action_scope.
Notation "m ;; k" := (bind m (fun _ => k))
  (at level 100, right associativity) : action_scope.
Open Scope action_scope.

(** [try: body  except Exception as e: handler e] *)
Definition try_except {A} (body : M A) (handler : exn -> M A) : M A :=
  fun w =>
    match body w with
    | (Ret a, w') => (Ret a, w')
    | (Raise e, w') => handler e w'
    end.

Definition perform (c : call) : M unit :=
  fun w =>
    match faults w (length (trace w)) c with
    | Some e => (Raise e, log w c (Raised e))
    | None => (Ret tt, log w c Returned)
    end.

Definition send (ch : Channel) (p : payload) : M unit := perform (Send ch p).

Definition create_dm (who : Member) : M Channel :=
  perform (CreateDm who) ;; fun w => (Ret (dm_of_author w), w).

Definition file_of (a : Attachment) : File := mkFile (filename a) (url a).

Definition to_file (img : Attachment) : M File :=
  perform (ToFile img) ;; ret (file_of img).

(** [datetime.utcnow()] *)
Definition utcnow : M N := fun w => (Ret (clock w), w).

Definition get_images : M (list Attachment) := fun w => (Ret (images w), w).

Definition set_images (imgs : list Attachment) : M unit :=
  fun w => (Ret tt, with_images w imgs).

(** [images.extend(more)] *)
Definition extend_images (more : list Attachment) : M unit :=
  fun w => (Ret tt, with_images w (images w ++ more)).

(** The first event of the inbox that passes [check], unless the window
    runs out first. *)
Fixpoint next_qualifying (check : Message -> bool) (i : list incoming)
  : option Message * list incoming :=
  match i with
  | [] => (None, [])
  | WindowElapses :: rest => (None, rest)
  | Arrives m :: rest =>
      if check m then (Some m, rest) else next_qualifying check rest
  end.

Definition wait_for (check : Message -> bool) : M Message :=
  fun w =>
    match next_qualifying check (inbox w) with
    | (Some m, rest) => (Ret m, log (with_inbox w rest) WaitFor Returned)
    | (None, rest) =>
        (Raise TimeoutError, log (with_inbox w rest) WaitFor (Raised TimeoutError))
    end.

(** ** The report command *)

Definition no_mod_channel_text : str :=
  lit "❌ Unable to process report: Moderator channel not found. Please notify an admin.".

Definition will_dm_text : str :=
  lit "📨 I'll send you a DM to collect any images for your report.".

Definition prompt_text : str :=
  lit "📎 **Please send the images for your report**" ++ nl ++ nl
  ++ lit "• Send your images as attachments" ++ nl
  ++ lit "• Supported formats: PNG, JPG, JPEG, GIF" ++ nl
  ++ lit "• Type `done` when you've finished" ++ nl
  ++ lit "• Or wait 60 seconds to submit without more images".

Definition invalid_format_text : str :=
  lit "⚠️ Invalid file format! Please only send PNG, JPG, JPEG, or GIF images.".

(** ['s' if n != 1 else ''] *)
Definition plural (n : nat) : str := if n =? 1 then [] else lit "s".

Definition received_text (n : nat) : str :=
  lit "✅ Received " ++ str_of_nat n ++ lit " image" ++ plural n ++ lit ". "
  ++ lit "Send more or type `done` to finish.".

Definition times_up_text : str :=
  lit "⏰ Time's up! I'll proceed with the images you've already sent.".

Definition attached_text (n : nat) : str :=
  str_of_nat n ++ lit " image" ++ plural n ++ lit " attached".

Definition sent_head : str :=
  lit "✅ Your report has been sent to the moderators!" ++ nl.

Definition sent_text (imgs : list Attachment) : str :=
  sent_head
  ++ (if is_nil imgs then []
      else lit "📎 Included " ++ str_of_nat (length imgs) ++ lit " image"
           ++ plural (length imgs)).

Definition dm_forbidden_text : str :=
  lit "❌ I couldn't send you a DM. Please check your privacy settings and try again.".

Definition generic_error_text : str :=
  lit "❌ An error occurred while processing your report. Please try again later.".

Definition error_log_text (ctx : ApplicationContext) (e : exn) : str :=
  lit "Error processing report from " ++ str_of_N (member_id (ctx_author ctx))
  ++ lit ": " ++ str_of_exn e.

(** discord.Color.yellow() *)
Definition yellow : N := 16705372%N.

(** The inner function [check] (lines 79-87). *)
Definition check (ctx : ApplicationContext) (dm_channel : Channel) (msg : Message) : bool :=
  member_eqb (author msg) (ctx_author ctx)
  && channel_eqb (channel msg) dm_channel
  && ((0 <? length (attachments msg)) || str_eqb (lower (content msg)) (lit "done")).

Inductive loop_ctl := Break | Continue.

(** Lines 94-114: what the loop does with the message the wait returned. *)
Definition on_message (dm_channel : Channel) (msg : Message) : M loop_ctl :=
  if str_eqb (lower (content msg)) (lit "done") then ret Break
  else
    let valid_images := valid_images_of (attachments msg) in
    if is_nil valid_images && negb (is_nil (attachments msg)) then
      send dm_channel (Content invalid_format_text) ;;
      ret Continue
    else
      extend_images valid_images ;;
      send dm_channel (Content (received_text (length valid_images))) ;;
      ret Continue.

(** Lines 116-121: [except asyncio.TimeoutError]; any other exception
    leaves the loop as it is. *)
Definition on_exception (dm_channel : Channel) (e : exn) : M loop_ctl :=
  match e with
  | TimeoutError =>
      imgs <- get_images ;;
      (if is_nil imgs then ret tt
       else send dm_channel (Content times_up_text)) ;;
      ret Break
  | _ => raise e
  end.

(** One pass through the body of [while True] (lines 90-121). *)
Definition iteration (ctx : ApplicationContext) (dm_channel : Channel) : M loop_ctl :=
  try_except
    (msg <- wait_for (check ctx dm_channel) ;;
     on_message dm_channel msg)
    (on_exception dm_channel).

(** At most [n] passes of a [while True] loop; [Continue] says the loop is
    still running after them. *)
Fixpoint while_true (n : nat) (body : M loop_ctl) : M loop_ctl :=
  match n with
  | O => ret Continue
  | S n' =>
      c <- body ;;
      match c with
      | Break => ret Break
      | Continue => while_true n' body
      end
  end.

(** The loop of lines 89-121.  Every pass that does not leave the loop has
    taken an event from the inbox, so one pass more than the inbox holds
    events always reaches the [break] or an exception
    (see [collect_leaves_loop]). *)
Definition collect (ctx : ApplicationContext) (dm_channel : Channel) : M loop_ctl :=
  fun w => while_true (S (length (inbox w))) (iteration ctx dm_channel) w.

(** Lines 124-143. *)
Definition build_embed (ctx : ApplicationContext) (sanitized_message : str)
           (user : option Member) (imgs : list Attachment) (now : N) : Embed :=
  let content_field := [mkField (lit "📝 Content") sanitized_message false] in
  let user_field :=
    match user with
    | Some u =>
        [mkField (lit "User reported")
                 (mention u ++ lit " (" ++ str_of_N (member_id u) ++ lit ")") false]
    | None => []
    end in
  let images_field :=
    if is_nil imgs then []
    else [mkField (lit "📎 Attachments") (attached_text (length imgs)) false] in
  mkEmbed (lit "📢 New Report")
          (lit "From " ++ mention (ctx_author ctx))
          yellow now
          (content_field ++ user_field ++ images_field)
          (lit "Reporter ID: " ++ str_of_N (member_id (ctx_author ctx))).

(** [[await img.to_file() for img in images]] *)
Fixpoint to_files (imgs : list Attachment) : M (list File) :=
  match imgs with
  | [] => ret []
  | img :: rest =>
      f <- to_file img ;;
      fs <- to_files rest ;;
      ret (f :: fs)
  end.

(** Lines 123-156: the embed, the two sends to the moderator channel and
    the confirmation to the reporter. *)
Definition deliver (ctx : ApplicationContext) (mod_channel dm_channel : Channel)
           (sanitized_message : str) (user : option Member) : M unit :=
  imgs <- get_images ;;
  now <- utcnow ;;
  let embed := build_embed ctx sanitized_message user imgs now in
  send mod_channel (EmbedOnly embed) ;;
  (if is_nil imgs then ret tt
   else files <- to_files imgs ;; send mod_channel (FilesOnly files)) ;;
  send dm_channel (Content (sent_text imgs)).

(** The two [except] clauses of the outer [try] (lines 158-169). *)
Definition report_handler (ctx : ApplicationContext) (e : exn) : M unit :=
  match e with
  | Forbidden _ => perform (Respond dm_forbidden_text)
  | _ =>
      perform (LoggerError (error_log_text ctx e)) ;;
      perform (Respond generic_error_text)
  end.

(** Lines 68-121: the DM channel, the prompt and the evidence loop. *)
Definition open_session (ctx : ApplicationContext) : M (Channel * loop_ctl) :=
  dm_channel <- create_dm (ctx_author ctx) ;;
  send dm_channel (Content prompt_text) ;;
  set_images [] ;;
  ctl <- collect ctx dm_channel ;;
  ret (dm_channel, ctl).

(** [ReportCog.report] *)
Definition report (settings : Settings) (ctx : ApplicationContext)
           (message : str) (user : option Member) : M unit :=
  let sanitized_message := sanitize_message message in
  perform Defer ;;
  match utils_get (guild_channels ctx) (REPORTS settings) with
  | None => perform (Respond no_mod_channel_text)
  | Some mod_channel =>
      perform (Respond will_dm_text) ;;
      try_except
        (session <- open_session ctx ;;
         match session with
         | (dm_channel, Break) =>
             deliver ctx mod_channel dm_channel sanitized_message user
         | (_, Continue) => ret tt
         end)
        (report_handler ctx)
  end.

(** ** Reading a trace *)

Definition with_trace (w : World) (t : list (call * outcome)) : World :=
  mkWorld (inbox w) (faults w) (dm_of_author w) (clock w) t (images w).

(** The world after the calls [added] were logged. *)
Definition emit (w : World) (added : list (call * outcome)) : World :=
  with_trace w (trace w ++ added).

Definition is_phase1 (mod_channel : Channel) (c : call) : bool :=
  match c with
  | Send ch (EmbedOnly _) => channel_eqb ch mod_channel
  | _ => false
  end.

Definition is_phase2 (mod_channel : Channel) (c : call) : bool :=
  match c with
  | Send ch (FilesOnly _) => channel_eqb ch mod_channel
  | _ => false
  end.

Definition count_calls (p : call -> bool) (t : list (call * outcome)) : nat :=
  length (filter (fun e => p (fst e)) t).

(** Calls made before delivery starts: the two responses, the DM channel,
    the waits, and texts to the reporter other than the confirmation. *)
Definition session_call (c : call) : bool :=
  match c with
  | Defer | Respond _ | CreateDm _ | WaitFor => true
  | Send _ (Content text) => negb (startswith sent_head text)
  | _ => false
  end.

(** Calls made by the [except] clauses. *)
Definition handler_call (c : call) : bool :=
  match c with
  | Respond _ | LoggerError _ => true
  | _ => false
  end.

Definition to_file_call (c : call) : bool :=
  match c with
  | ToFile _ => true
  | _ => false
  end.

Definition only (p : call -> bool) (t : list (call * outcome)) : Prop :=
  forallb (fun e => p (fst e)) t = true.

(** The success confirmation, recognised by its first line. *)
Definition is_confirmation (c : call) : bool :=
  match c with
  | Send _ (Content text) => startswith sent_head text
  | _ => false
  end.

(** The run of [report] from [w] finds the moderator channel, opens the
    DM session and leaves the evidence loop in world [w2]. *)
Definition session_closes (settings : Settings) (ctx : ApplicationContext)
           (w : World) (mod_channel dm_channel : Channel) (w2 : World) : Prop :=
  utils_get (guild_channels ctx) (REPORTS settings) = Some mod_channel
  /\ exists wa wb,
      perform Defer w = (Ret tt, wa)
      /\ perform (Respond will_dm_text) wa = (Ret tt, wb)
      /\ open_session ctx wb = (Ret (dm_channel, Break), w2).

(** ** Vocabulary of the statements *)

(** [token] occurs in [s], whatever the case of its letters. *)
Definition occurs (token s : str) : Prop :=
  exists pre tok post, s = pre ++ tok ++ post /\ lower tok = lower token.

(** No position of [s] starts a match of the literal pattern. *)
Definition match_free (pat s : str) : Prop :=
  forall pre post, s = pre ++ post -> Re.match_here pat post = false.

(** [re.search(pat, s, re.IGNORECASE) is not None] for a literal pattern. *)
Fixpoint search (pat s : str) : bool :=
  Re.match_here pat s
  || match s with
     | [] => false
     | _ :: s' => search pat s'
     end.

(** The calls of a completed evidence hand-over: every image converted,
    then the bundle sent; nothing when there is no image. *)
Definition evidence_part (mod_channel : Channel) (imgs : list Attachment)
  : list (call * outcome) :=
  if is_nil imgs then []
  else map (fun a => (ToFile a, Returned)) imgs
       ++ [(Send mod_channel (FilesOnly (map file_of imgs)), Returned)].

(** What the delivery block (lines 123-156) and the [except] clauses add
    to the trace once the loop is left, by the place where a call
    raised, if any. *)
Inductive delivery_trace (mod_channel dm_channel : Channel) (embed : Embed)
          (imgs : list Attachment) : list (call * outcome) -> Prop :=
| Phase1_raises (e : exn) (hs : list (call * outcome)) :
    only handler_call hs ->
    delivery_trace mod_channel dm_channel embed imgs
      ((Send mod_channel (EmbedOnly embed), Raised e) :: hs)
| To_file_raises (converted : list Attachment) (a : Attachment)
                 (rest : list Attachment) (e : exn) (hs : list (call * outcome)) :
    imgs = converted ++ a :: rest -> only handler_call hs ->
    delivery_trace mod_channel dm_channel embed imgs
      ((Send mod_channel (EmbedOnly embed), Returned)
         :: map (fun a => (ToFile a, Returned)) converted
         ++ (ToFile a, Raised e) :: hs)
| Phase2_raises (e : exn) (hs : list (call * outcome)) :
    imgs <> [] -> only handler_call hs ->
    delivery_trace mod_channel dm_channel embed imgs
      ((Send mod_channel (EmbedOnly embed), Returned)
         :: map (fun a => (ToFile a, Returned)) imgs
         ++ (Send mod_channel (FilesOnly (map file_of imgs)), Raised e) :: hs)
| Delivered (o : outcome) (hs : list (call * outcome)) :
    only handler_call hs ->
    delivery_trace mod_channel dm_channel embed imgs
      ((Send mod_channel (EmbedOnly embed), Returned)
         :: evidence_part mod_channel imgs
         ++ (Send dm_channel (Content (sent_text imgs)), o) :: hs).

(** Calls outside the delivery block. *)
Definition quiet_call (c : call) : bool := session_call c || handler_call c.

Definition not_confirmation (c : call) : bool := negb (is_confirmation c).

(** [w'] is [w] after some calls that all satisfy [p]; the inbox may have
    been read but not refilled. *)
Definition extends (p : call -> bool) (w w' : World) : Prop :=
  (exists added, trace w' = trace w ++ added /\ only p added)
  /\ length (inbox w') <= length (inbox w).

(** Every run of [m] only makes calls that satisfy [p]. *)
Definition calls_only {A} (p : call -> bool) (m : M A) : Prop :=
  forall w, extends p w (snd (m w)).

(** The sanitizer as section 4.1 of the spec words it, in one pass from the
    left: a token, in any case, gives its bracketed text; any other
    character is kept.  [skip] counts the characters of a token still to
    be passed over. *)
Fixpoint sanitize_spec_from (skip : nat) (s : str) : str :=
  match s with
  | [] => []
  | c :: s' =>
      match skip with
      | S k => sanitize_spec_from k s'
      | O =>
          if Re.match_here at_everyone s
          then bracket_everyone ++ sanitize_spec_from 8 s'
          else if Re.match_here at_here s
               then bracket_here ++ sanitize_spec_from 4 s'
               else c :: sanitize_spec_from 0 s'
      end
  end.

Definition sanitize_spec (s : str) : str := sanitize_spec_from 0 s.

(** The extension of a filename: what follows its last dot, if there is
    one. *)
Fixpoint file_extension (name : str) : option str :=
  match name with
  | [] => None
  | c :: rest =>
      match file_extension rest with
      | Some e => Some e
      | None => if Ascii.eqb c "." then Some rest else None
      end
  end.

(** The filter as the claim reads it: the extension, in lower case, is
    one of the allow-list. *)
Definition has_allowed_extension (attachment : Attachment) : bool :=
  match file_extension (filename attachment) with
  | Some e => existsb (str_eqb (lower e)) allowed_extensions
  | None => false
  end.

(** ** Sample runs *)

Definition sample_reporter : Member := mkMember 12345 (lit "@TestUser").
Definition sample_dm : Channel := mkChannel 7.
Definition sample_mod : Channel := mkChannel 99.
Definition sample_ctx : ApplicationContext :=
  mkCtx sample_reporter [mkChannel 1; sample_mod].
Definition sample_settings : Settings := mkSettings 99.

Definition sample_attachment (name : string) : Attachment :=
  mkAttachment (lit name) 1048576 (lit "https://cdn.example/" ++ lit name).

Definition no_faults : nat -> call -> option exn := fun _ _ => None.

(** The bot may not write to the moderator channel. *)
Definition mod_forbidden : nat -> call -> option exn :=
  fun _ c =>
    match c with
    | Send ch (EmbedOnly _) =>
        if channel_eqb ch sample_mod
        then Some (Forbidden (lit "403 Forbidden (error code: 50013): Missing Permissions"))
        else None
    | _ => None
    end.

Definition sample_world (i : list incoming) (f : nat -> call -> option exn) : World :=
  mkWorld i f sample_dm 0 [] [].

Definition done_message : Message :=
  mkMessage sample_reporter sample_dm (lit "Done") [].

Definition mixed_message : Message :=
  mkMessage sample_reporter sample_dm []
            [sample_attachment "valid.png"; sample_attachment "invalid.txt";
             sample_attachment "valid.jpg"].

Definition done_with_image : Message :=
  mkMessage sample_reporter sample_dm (lit "DONE") [sample_attachment "late.png"].

(** A world in the middle of a session: one image collected, silence. *)
Definition waiting_world : World :=
  mkWorld [] no_faults sample_dm 0 [] [sample_attachment "first.png"].

Definition mixed_then_done : World :=
  sample_world [Arrives mixed_message; Arrives done_message] no_faults.

Definition is_digit (c : ascii) : bool :=
  let n := nat_of_ascii c in (48 <=? n) && (n <=? 57).

(** The world of [mixed_then_done] when its loop has been left. *)
Definition mixed_closed : World :=
  mkWorld [] no_faults sample_dm 0
          [(Defer, Returned);
           (Respond will_dm_text, Returned);
           (CreateDm sample_reporter, Returned);
           (Send sample_dm (Content prompt_text), Returned);
           (WaitFor, Returned);
           (Send sample_dm (Content (received_text 2)), Returned);
           (WaitFor, Returned)]
          [sample_attachment "valid.png"; sample_attachment "valid.jpg"].

Definition mixed_embed : Embed :=
  build_embed sample_ctx (lit "spam from [at everyone]") None
              [sample_attachment "valid.png"; sample_attachment "valid.jpg"] 0.

(** ** Further vocabulary *)

(** What a session with a working DM channel collects from an inbox: the
    accepted attachments of the messages that pass [chk], in order, up to
    the first [done] or the first window that runs out. *)
Fixpoint gathered (chk : Message -> bool) (i : list incoming) : list Attachment :=
  match i with
  | [] => []
  | WindowElapses :: _ => []
  | Arrives m :: rest =>
      if chk m
      then if str_eqb (lower (content m)) (lit "done") then []
           else valid_images_of (attachments m) ++ gathered chk rest
      else gathered chk rest
  end.

(** A send of an embed, or of files, to any channel. *)
Definition is_embed_send (c : call) : bool :=
  match c with
  | Send _ (EmbedOnly _) => true
  | _ => false
  end.

Definition is_files_send (c : call) : bool :=
  match c with
  | Send _ (FilesOnly _) => true
  | _ => false
  end.

Definition result_of (o : outcome) : result unit :=
  match o with
  | Returned => Ret tt
  | Raised e => Raise e
  end.

(** A message of somebody else in the DM channel, and a text that is
    neither [done] nor carries a file. *)
Definition stranger_message : Message :=
  mkMessage (mkMember 777 (lit "@Other")) sample_dm (lit "done")
            [sample_attachment "other.png"].

Definition chat_message : Message :=
  mkMessage sample_reporter sample_dm (lit "here it comes") [].

(** The DM channel lets the acknowledgement time out. *)
Definition ack_times_out : nat -> call -> option exn :=
  fun n c =>
    match c with
    | Send _ (Content text) =>
        if startswith (lit "✅ Received") text then Some TimeoutError else None
    | _ => None
    end.

(** The reporter has closed their DMs. *)
Definition dm_closed : nat -> call -> option exn :=
  fun n c =>
    match c with
    | Send ch (Content _) =>
        if channel_eqb ch sample_dm
        then Some (Forbidden (lit "403 Forbidden (error code: 50007)"))
        else None
    | _ => None
    end.

Definition create_dm_fails : nat -> call -> option exn :=
  fun n c =>
    match c with
    | CreateDm _ => Some (Failure (lit "Unexpected error"))
    | _ => None
    end.

(** A guild without the configured moderator channel. *)
Definition lonely_ctx : ApplicationContext := mkCtx sample_reporter [mkChannel 1].

(** * Properties *)

(** ** Characters and strings *)

Lemma str_eqb_eq (a b : str) : str_eqb a b = true <-> a = b.
Proof.
  revert b; induction a as [|x a IH]; intros [|y b]; simpl; split;
    try congruence; try reflexivity.
  - intros H. apply andb_true_iff in H as [H1 H2].
    apply Ascii.eqb_eq in H1. apply IH in H2. congruence.
  - intros H. injection H as -> ->. rewrite Ascii.eqb_refl. simpl.
    now apply IH.
Qed.

Lemma lower_app (a b : str) : lower (a ++ b) = lower a ++ lower b.
Proof. apply map_app. Qed.

Lemma lower_length (a : str) : length (lower a) = length a.
Proof. apply length_map. Qed.

Lemma endswith_spec (s suffix : str) :
  endswith s suffix = true <-> exists pre, s = pre ++ suffix.
Proof.
  unfold endswith. rewrite andb_true_iff, Nat.leb_le, str_eqb_eq. split.
  - intros [Hlen Heq]. exists (firstn (length s - length suffix) s).
    rewrite <- Heq at 2. symmetry. apply firstn_skipn.
  - intros [pre ->]. rewrite length_app. split; [lia|].
    replace (length pre + length suffix - length suffix) with (length pre) by lia.
    rewrite skipn_app, skipn_all, Nat.sub_diag. reflexivity.
Qed.

(** ** Attachment filter *)

Lemma is_acceptable_iff (a : Attachment) :
  is_acceptable a = true <->
  exists ext, In ext allowed_extensions /\ endswith (lower (filename a)) ext = true.
Proof. unfold is_acceptable. apply existsb_exists. Qed.

Lemma valid_images_of_app (xs ys : list Attachment) :
  valid_images_of (xs ++ ys) = valid_images_of xs ++ valid_images_of ys.
Proof. apply filter_app. Qed.

(** What the code decides: an attachment is accepted exactly when its
    filename splits into a head and a tail whose lower-cased form is one
    of [png], [jpg], [jpeg], [gif], with or without a dot before the tail;
    and within a batch each item is kept or dropped on its own verdict,
    whatever stands before or after it. *)
Lemma attachment_filter_allow_list :
  (forall a : Attachment,
      is_acceptable a = true <->
      exists pre suffix,
        filename a = pre ++ suffix /\
        In (lower suffix) [lit "png"; lit "jpg"; lit "jpeg"; lit "gif"])
  /\
  (forall (before after : list Attachment) (a : Attachment),
      valid_images_of (before ++ a :: after)
      = valid_images_of before
        ++ (if is_acceptable a then [a] else [])
        ++ valid_images_of after).
Proof.
  split.
  - intros a. rewrite is_acceptable_iff. split.
    + intros (ext & Hin & Hend). apply endswith_spec in Hend as [pre' Hpre].
      unfold lower in Hpre. apply map_eq_app in Hpre as (l1 & l2 & Hfn & _ & Hl2).
      exists l1, l2. split; [exact Hfn|]. unfold lower. rewrite Hl2. exact Hin.
    + intros (pre & suffix & Hfn & Hin). exists (lower suffix). split; [exact Hin|].
      apply endswith_spec. exists (lower pre). rewrite Hfn. apply lower_app.
  - intros before after a. rewrite valid_images_of_app. f_equal.
    unfold valid_images_of. simpl. destruct (is_acceptable a); reflexivity.
Qed.

Lemma file_extension_split (name e : str) :
  file_extension name = Some e -> exists pre, name = pre ++ "."%char :: e.
Proof.
  revert e; induction name as [|c rest IH]; intros e H; [discriminate|].
  simpl in H. destruct (file_extension rest) as [e'|] eqn:E.
  - injection H as <-. destruct (IH e' eq_refl) as [pre ->].
    now exists (c :: pre).
  - destruct (Ascii.eqb c ".") eqn:Ec; [|discriminate].
    injection H as <-. apply Ascii.eqb_eq in Ec. subst c. now exists [].
Qed.

(** Every file with an extension of the allow-list is accepted: the code
    errs on one side only. *)
Lemma allowed_extension_accepted (a : Attachment) :
  has_allowed_extension a = true -> is_acceptable a = true.
Proof.
  unfold has_allowed_extension.
  destruct (file_extension (filename a)) as [e|] eqn:E; [|discriminate].
  intros H. apply existsb_exists in H as (ext & Hin & Heq).
  apply str_eqb_eq in Heq. apply file_extension_split in E as [pre Hname].
  apply is_acceptable_iff. exists ext. split; [exact Hin|].
  apply endswith_spec. exists (lower (pre ++ ["."%char])).
  rewrite Hname, <- Heq, <- lower_app, <- app_assoc. reflexivity.
Qed.

(** C1. The filter of the code accepts more than the files whose
    extension is in the allow-list: a name without any extension that
    ends in the letters [png], and names whose extension, [apng] or
    [notajpg], only ends in letters of the list. *)
Theorem filter_accepts_foreign_extensions :
  (file_extension (lit "evidencepng") = None
   /\ has_allowed_extension (mkAttachment (lit "evidencepng") 1 []) = false
   /\ is_acceptable (mkAttachment (lit "evidencepng") 1 []) = true)
  /\
  (file_extension (lit "clip.apng") = Some (lit "apng")
   /\ has_allowed_extension (mkAttachment (lit "clip.apng") 1 []) = false
   /\ is_acceptable (mkAttachment (lit "clip.apng") 1 []) = true)
  /\
  (file_extension (lit "x.notajpg") = Some (lit "notajpg")
   /\ has_allowed_extension (mkAttachment (lit "x.notajpg") 1 []) = false
   /\ is_acceptable (mkAttachment (lit "x.notajpg") 1 []) = true).
Proof. repeat split; reflexivity. Qed.

(** ** The scanner of [re.sub] *)

Lemma scan_skip (pat repl : str) (k : nat) (s : str) :
  Re.scan pat repl k s = Re.scan pat repl 0 (skipn k s).
Proof.
  revert k; induction s as [|c s IH]; intros [|k]; try reflexivity.
  simpl Re.scan at 1. rewrite IH. reflexivity.
Qed.

(** The equation of [re.sub] at a non-empty subject. *)
Lemma sub_cons (pat repl : str) (c : ascii) (s : str) :
  Re.sub pat repl (c :: s)
  = if Re.match_here pat (c :: s)
    then repl ++ Re.sub pat repl (skipn (pred (length pat)) s)
    else c :: Re.sub pat repl s.
Proof.
  unfold Re.sub. simpl Re.scan at 1.
  destruct (Re.match_here pat (c :: s)); [|reflexivity].
  now rewrite scan_skip.
Qed.

Lemma match_here_cons (p : ascii) (pat : str) (c : ascii) (s : str) :
  Re.match_here (p :: pat) (c :: s) = Re.char_match p c && Re.match_here pat s.
Proof. reflexivity. Qed.

Lemma match_here_app (pat s rest : str) :
  Re.match_here pat s = true -> Re.match_here pat (s ++ rest) = true.
Proof.
  revert s; induction pat as [|p pat IH]; intros [|c s]; simpl; try congruence.
  intros H. apply andb_true_iff in H as [H1 H2]. rewrite H1. simpl. auto.
Qed.

Lemma match_here_lower (pat tok rest : str) :
  lower tok = lower pat -> Re.match_here pat (tok ++ rest) = true.
Proof.
  revert tok; induction pat as [|p pat IH]; intros [|c tok]; simpl; try congruence.
  intros H. injection H as Hc Ht. unfold Re.char_match. rewrite Hc, Ascii.eqb_refl.
  simpl. auto.
Qed.

Lemma match_here_split (pat s : str) :
  Re.match_here pat s = true ->
  exists tok rest, s = tok ++ rest /\ lower tok = lower pat.
Proof.
  revert s; induction pat as [|p pat IH]; intros s H.
  - exists [], s. split; reflexivity.
  - destruct s as [|c s]; simpl in H; [discriminate|].
    apply andb_true_iff in H as [H1 H2]. apply IH in H2 as (tok & rest & -> & Hl).
    exists (c :: tok), rest. split; [reflexivity|]. simpl.
    apply Ascii.eqb_eq in H1. congruence.
Qed.

(** A match cannot run over a character that no letter of the pattern
    matches. *)
Lemma match_here_stops (pat pre : str) (d : ascii) (rest : str) :
  (forall p, In p pat -> Re.char_match p d = false) ->
  Re.match_here pat (pre ++ d :: rest) = true ->
  length pat <= length pre /\ Re.match_here pat pre = true.
Proof.
  intros Hd. revert pre. induction pat as [|p pat IH]; intros pre H.
  - split; [simpl; lia | reflexivity].
  - destruct pre as [|c pre]; simpl in H; apply andb_true_iff in H as [H1 H2].
    + rewrite Hd in H1 by (left; reflexivity). discriminate.
    + apply IH in H2 as [Hlen Hm]; [|intros q Hq; apply Hd; right; exact Hq].
      split; [simpl; lia|]. simpl. now rewrite H1, Hm.
Qed.

Section Literal.

(** A literal pattern [h :: body] and its replacement. *)
Variables (h : ascii) (body repl : str).
Let pat : str := h :: body.

(** The scanner works on both sides of a character that no letter of
    [body] matches as if the other side were not there. *)
Lemma scan_cut (d : ascii) (rest : str) :
  (forall p, In p body -> Re.char_match p d = false) ->
  forall (pre : str) (k : nat),
    k <= length pre ->
    Re.scan pat repl k (pre ++ d :: rest)
    = Re.scan pat repl k pre ++ Re.scan pat repl 0 (d :: rest).
Proof.
  intros Hd. induction pre as [|c pre IH]; intros k Hk.
  - simpl in Hk. replace k with 0 by lia. reflexivity.
  - destruct k as [|k]; simpl in Hk.
    + change ((c :: pre) ++ d :: rest) with (c :: (pre ++ d :: rest)).
      simpl Re.scan at 1 2.
      destruct (Re.char_match h c) eqn:Hc; simpl.
      * destruct (Re.match_here body (pre ++ d :: rest)) eqn:Hm.
        -- apply match_here_stops in Hm as [Hlen Hm]; [|exact Hd].
           rewrite Hm, IH by exact Hlen. now rewrite app_assoc.
        -- assert (Hm' : Re.match_here body pre = false).
           { destruct (Re.match_here body pre) eqn:E; [|reflexivity].
             apply match_here_app with (rest := d :: rest) in E. congruence. }
           rewrite Hm', IH by lia. reflexivity.
      * rewrite IH by lia. reflexivity.
    + change ((c :: pre) ++ d :: rest) with (c :: (pre ++ d :: rest)).
      simpl Re.scan at 1 2. apply IH. lia.
Qed.

Lemma sub_cut (d : ascii) (rest pre : str) :
  (forall p, In p body -> Re.char_match p d = false) ->
  Re.sub pat repl (pre ++ d :: rest)
  = Re.sub pat repl pre ++ Re.sub pat repl (d :: rest).
Proof. intros Hd. unfold Re.sub. apply scan_cut; [exact Hd | lia]. Qed.

(** A matched token is replaced and the scanner resumes right after it. *)
Lemma sub_token (tok post : str) :
  lower tok = lower pat ->
  Re.sub pat repl (tok ++ post) = repl ++ Re.sub pat repl post.
Proof.
  intros Hl. destruct tok as [|c tok]; [discriminate|].
  change ((c :: tok) ++ post) with (c :: (tok ++ post)).
  rewrite sub_cons.
  change (c :: tok ++ post) with ((c :: tok) ++ post).
  rewrite (match_here_lower pat (c :: tok) post Hl). f_equal. f_equal.
  assert (Hlen : length tok = pred (length pat)).
  { apply (f_equal (@length ascii)) in Hl. rewrite !lower_length in Hl.
    simpl in Hl. simpl. lia. }
  rewrite <- Hlen, skipn_app, skipn_all, Nat.sub_diag. reflexivity.
Qed.

(** Characters that do not match the first letter are copied. *)
Lemma sub_copy (mid rest : str) :
  (forall c, In c mid -> Re.char_match h c = false) ->
  Re.sub pat repl (mid ++ rest) = mid ++ Re.sub pat repl rest.
Proof.
  induction mid as [|c mid IH]; intros Hmid; [reflexivity|].
  change ((c :: mid) ++ rest) with (c :: (mid ++ rest)).
  rewrite sub_cons. simpl Re.match_here.
  rewrite Hmid by (left; reflexivity). simpl.
  rewrite IH by (intros x Hx; apply Hmid; right; exact Hx). reflexivity.
Qed.

(** A subject without a match is returned as it is. *)
Lemma sub_match_free (s : str) :
  match_free pat s -> Re.sub pat repl s = s.
Proof.
  induction s as [|c s IH]; intros Hfree; [reflexivity|].
  rewrite sub_cons, (Hfree [] (c :: s) eq_refl). f_equal. apply IH.
  intros pre post ->. apply (Hfree (c :: pre) post). reflexivity.
Qed.

End Literal.

(** ** Subjects without a match *)

Lemma match_free_iff (pat s : str) : match_free pat s <-> ~ occurs pat s.
Proof.
  split.
  - intros Hfree (pre & tok & post & -> & Hl).
    specialize (Hfree pre (tok ++ post) eq_refl).
    rewrite match_here_lower in Hfree by exact Hl. discriminate.
  - intros Hno pre post ->. destruct (Re.match_here pat post) eqn:Hm; [|reflexivity].
    exfalso. apply Hno. apply match_here_split in Hm as (tok & rest & -> & Hl).
    now exists pre, tok, rest.
Qed.

Lemma match_free_nil (h : ascii) (body : str) : match_free (h :: body) [].
Proof.
  intros pre post H. symmetry in H. apply app_eq_nil in H as [_ ->]. reflexivity.
Qed.

Lemma match_free_cons (pat : str) (c : ascii) (s : str) :
  Re.match_here pat (c :: s) = false -> match_free pat s -> match_free pat (c :: s).
Proof.
  intros Hc Hs [|x pre] post H; simpl in H.
  - now subst post.
  - injection H as _ H. now apply (Hs pre).
Qed.

Lemma match_free_tail (pat : str) (c : ascii) (s : str) :
  match_free pat (c :: s) -> match_free pat s.
Proof. intros H pre post ->. now apply (H (c :: pre)). Qed.

Lemma match_free_app (h : ascii) (body mid rest : str) :
  (forall c, In c mid -> Re.char_match h c = false) ->
  match_free (h :: body) rest -> match_free (h :: body) (mid ++ rest).
Proof.
  intros Hmid Hrest. induction mid as [|c mid IH]; [exact Hrest|].
  apply match_free_cons.
  - simpl. now rewrite Hmid by (left; reflexivity).
  - apply IH. intros x Hx. apply Hmid. now right.
Qed.

Section Substituted.

(** The pattern and replacement of a [re.sub], and a second literal
    [h' :: body'] that the replacement text can neither start nor
    continue. *)
Variables (pat : str) (r0 : ascii) (rtail : str).
Let repl : str := r0 :: rtail.
Variables (h' : ascii) (body' : str).
Hypothesis repl_no_head : forall c, In c repl -> Re.char_match h' c = false.
Hypothesis r0_blocks : forall b, In b body' -> Re.char_match b r0 = false.

(** Letters read in the result right after a kept character were
    already there in the subject. *)
Lemma match_here_scan (frag : str) :
  (forall b, In b frag -> Re.char_match b r0 = false) ->
  forall s, Re.match_here frag (Re.scan pat repl 0 s) = true ->
            Re.match_here frag s = true.
Proof.
  induction frag as [|b frag IH]; intros Hb s H; [reflexivity|].
  destruct s as [|c s]; [exact H|].
  simpl Re.scan in H. destruct (Re.match_here pat (c :: s)).
  - simpl in H. rewrite Hb in H by (left; reflexivity). discriminate.
  - simpl in H. apply andb_true_iff in H as [H1 H2]. simpl. rewrite H1. simpl.
    apply IH; [|exact H2]. intros x Hx. apply Hb. now right.
Qed.

Lemma scan_match_free (s : str) :
  forall k,
    (forall pre post, s = pre ++ post ->
                      Re.match_here (h' :: body') post = true ->
                      Re.match_here pat post = true) ->
    match_free (h' :: body') (Re.scan pat repl k s).
Proof.
  induction s as [|c s IH]; intros k Hs.
  - destruct k; apply match_free_nil.
  - assert (Hs' : forall pre post, s = pre ++ post ->
                    Re.match_here (h' :: body') post = true ->
                    Re.match_here pat post = true).
    { intros pre post ->. apply (Hs (c :: pre)). reflexivity. }
    destruct k as [|k]; simpl Re.scan; [|now apply IH].
    destruct (Re.match_here pat (c :: s)) eqn:Hm.
    + apply (@match_free_app h' body' repl); [exact repl_no_head | now apply IH].
    + apply match_free_cons; [|now apply IH].
      destruct (Re.match_here (h' :: body') (c :: Re.scan pat repl 0 s)) eqn:E;
        [|reflexivity].
      simpl in E. apply andb_true_iff in E as [E1 E2].
      apply match_here_scan in E2; [|exact r0_blocks].
      rewrite (Hs [] (c :: s) eq_refl) in Hm; [discriminate|].
      simpl. now rewrite E1, E2.
Qed.

(** A literal absent from the subject is absent from the result. *)
Lemma sub_keeps_match_free (s : str) :
  match_free (h' :: body') s -> match_free (h' :: body') (Re.sub pat repl s).
Proof.
  intros Hfree. apply scan_match_free. intros pre post -> Hm.
  rewrite (Hfree pre post eq_refl) in Hm. discriminate.
Qed.

End Substituted.

(** No match of the pattern is left in the result of its own [re.sub]. *)
Lemma sub_removes (h : ascii) (body : str) (r0 : ascii) (rtail s : str) :
  (forall c, In c (r0 :: rtail) -> Re.char_match h c = false) ->
  (forall b, In b body -> Re.char_match b r0 = false) ->
  match_free (h :: body) (Re.sub (h :: body) (r0 :: rtail) s).
Proof.
  intros H1 H2. apply scan_match_free; auto.
Qed.

Lemma search_false (pat s : str) : search pat s = false <-> match_free pat s.
Proof.
  induction s as [|c s IH]; simpl; rewrite orb_false_iff.
  - split.
    + intros [H _] pre post E. symmetry in E. apply app_eq_nil in E as [_ ->]. exact H.
    + intros H. split; [apply (H [] [] eq_refl) | reflexivity].
  - rewrite IH. split.
    + intros [H1 H2]. now apply match_free_cons.
    + intros H. split; [apply (H [] (c :: s) eq_refl) | now apply match_free_tail in H].
Qed.

Lemma search_false_occurs (pat s : str) : search pat s = false -> ~ occurs pat s.
Proof. intros H. now apply match_free_iff, search_false. Qed.

(** ** Sanitizer *)

(** Decides a property of every character of a literal. *)
Ltac each_char :=
  let c := fresh "c" in
  let Hc := fresh "Hc" in
  intros c Hc; simpl in Hc;
  repeat (destruct Hc as [<- | Hc]; [reflexivity|]);
  contradiction.

Lemma char_match_lower (p c : ascii) :
  Re.char_match p c = Ascii.eqb (lower_char c) (lower_char p).
Proof. reflexivity. Qed.

(** Any spelling of [@] opens no letter of either token. *)
Lemma at_blocks (c : ascii) (body : str) :
  lower_char c = "@"%char ->
  (forall p, In p body -> lower_char p <> "@"%char) ->
  forall p, In p body -> Re.char_match p c = false.
Proof.
  intros Hc Hbody p Hp. rewrite char_match_lower, Hc.
  apply Ascii.eqb_neq. intros E. now apply (Hbody p Hp).
Qed.

Lemma letters_not_at (body : str) :
  (forall p, In p body -> lower_char p <> "@"%char) ->
  forall t, lower t = lower body ->
            forall c, In c t -> Re.char_match "@" c = false.
Proof.
  intros Hbody t Ht c Hc. rewrite char_match_lower. apply Ascii.eqb_neq.
  change (lower_char "@") with "@"%char.
  assert (Hin : In (lower_char c) (lower body)).
  { rewrite <- Ht. now apply in_map. }
  apply in_map_iff in Hin as (p & Hp & Hpin).
  rewrite <- Hp. now apply Hbody.
Qed.

Lemma everyone_letters : forall p, In p (lit "everyone") -> lower_char p <> "@"%char.
Proof.
  intros p Hp; simpl in Hp;
    repeat (destruct Hp as [<- | Hp]; [discriminate|]); contradiction.
Qed.

Lemma here_letters : forall p, In p (lit "here") -> lower_char p <> "@"%char.
Proof.
  intros p Hp; simpl in Hp;
    repeat (destruct Hp as [<- | Hp]; [discriminate|]); contradiction.
Qed.

Lemma sanitize_at_everyone (pre tok post : str) :
  lower tok = at_everyone ->
  sanitize_message (pre ++ tok ++ post)
  = sanitize_message pre ++ bracket_everyone ++ sanitize_message post.
Proof.
  intros Hl. unfold sanitize_message.
  destruct tok as [|c t]; [discriminate|].
  assert (Hc : lower_char c = "@"%char) by (injection Hl as Hc _; exact Hc).
  change ((c :: t) ++ post) with (c :: (t ++ post)).
  change at_everyone with ("@"%char :: lit "everyone").
  rewrite sub_cut by (apply at_blocks; [exact Hc | exact everyone_letters]).
  change (c :: t ++ post) with ((c :: t) ++ post).
  rewrite sub_token by exact Hl.
  change ("@"%char :: lit "everyone") with at_everyone.
  set (X := Re.sub at_everyone bracket_everyone pre).
  set (Y := Re.sub at_everyone bracket_everyone post).
  change at_here with ("@"%char :: lit "here").
  change bracket_everyone with ("["%char :: lit "at everyone]").
  change (("["%char :: lit "at everyone]") ++ Y)
    with ("["%char :: (lit "at everyone]" ++ Y)).
  rewrite sub_cut by each_char.
  change ("["%char :: (lit "at everyone]" ++ Y)) with (lit "[at everyone]" ++ Y).
  rewrite sub_copy by each_char. reflexivity.
Qed.

Lemma sanitize_at_here (pre tok post : str) :
  lower tok = at_here ->
  sanitize_message (pre ++ tok ++ post)
  = sanitize_message pre ++ bracket_here ++ sanitize_message post.
Proof.
  intros Hl. unfold sanitize_message.
  destruct tok as [|c t]; [discriminate|].
  assert (Hc : lower_char c = "@"%char) by (injection Hl as Hc _; exact Hc).
  assert (Ht : lower t = lower (lit "here")) by (injection Hl as _ Ht; exact Ht).
  change ((c :: t) ++ post) with (c :: (t ++ post)).
  change at_everyone with ("@"%char :: lit "everyone").
  rewrite sub_cut by (apply at_blocks; [exact Hc | exact everyone_letters]).
  (* the first pass copies the token *)
  assert (Hcopy : Re.sub ("@"%char :: lit "everyone") bracket_everyone (c :: t ++ post)
                  = (c :: t) ++ Re.sub ("@"%char :: lit "everyone") bracket_everyone post).
  { rewrite sub_cons.
    assert (Hno : Re.match_here ("@"%char :: lit "everyone") (c :: t ++ post) = false).
    { destruct t as [|t0 t]; [discriminate|]. injection Ht as Ht0 _.
      simpl. rewrite (char_match_lower "e" t0), Ht0. simpl. apply andb_false_r. }
    rewrite Hno. simpl. f_equal.
    apply sub_copy.
    apply letters_not_at with (body := lit "here"); [exact here_letters | exact Ht]. }
  rewrite Hcopy.
  set (X := Re.sub ("@"%char :: lit "everyone") bracket_everyone pre).
  set (Y := Re.sub ("@"%char :: lit "everyone") bracket_everyone post).
  change at_here with ("@"%char :: lit "here").
  change ((c :: t) ++ Y) with (c :: (t ++ Y)).
  rewrite sub_cut by (apply at_blocks; [exact Hc | exact here_letters]).
  change (c :: (t ++ Y)) with ((c :: t) ++ Y).
  rewrite sub_token by exact Hl. reflexivity.
Qed.

Lemma sanitize_match_free (s : str) :
  match_free at_everyone s -> match_free at_here s -> sanitize_message s = s.
Proof.
  intros H1 H2. unfold sanitize_message.
  change at_everyone with ("@"%char :: lit "everyone") in *.
  change at_here with ("@"%char :: lit "here") in *.
  rewrite (sub_match_free bracket_everyone H1). now apply sub_match_free.
Qed.

(** Neither token is left in a sanitized message. *)
Lemma sanitize_clean (s : str) :
  match_free at_everyone (sanitize_message s)
  /\ match_free at_here (sanitize_message s).
Proof.
  unfold sanitize_message. split.
  - change at_everyone with ("@"%char :: lit "everyone").
    change bracket_here with ("["%char :: lit "at here]").
    apply sub_keeps_match_free; [each_char | each_char |].
    change bracket_everyone with ("["%char :: lit "at everyone]").
    apply sub_removes; each_char.
  - change at_here with ("@"%char :: lit "here").
    change bracket_here with ("["%char :: lit "at here]").
    apply sub_removes; each_char.
Qed.

(** A character that starts neither token is kept. *)
Lemma sanitize_keep (c : ascii) (s : str) :
  Re.match_here at_everyone (c :: s) = false ->
  Re.match_here at_here (c :: s) = false ->
  sanitize_message (c :: s) = c :: sanitize_message s.
Proof.
  intros H1 H2. unfold sanitize_message.
  rewrite sub_cons, H1, sub_cons.
  destruct (Re.match_here at_here (c :: Re.sub at_everyone bracket_everyone s)) eqn:E;
    [|reflexivity].
  exfalso. change at_here with ("@"%char :: lit "here") in E, H2.
  rewrite match_here_cons in E, H2. apply andb_true_iff in E as [E1 E2].
  change bracket_everyone with ("["%char :: lit "at everyone]") in E2.
  unfold Re.sub in E2. apply match_here_scan in E2; [|each_char].
  rewrite E1, E2 in H2. discriminate.
Qed.

Lemma sanitize_spec_skip (k : nat) (s : str) :
  sanitize_spec_from k s = sanitize_spec (skipn k s).
Proof.
  revert k; induction s as [|c s IH]; intros [|k]; try reflexivity.
  simpl sanitize_spec_from at 1. rewrite IH. reflexivity.
Qed.

Lemma match_here_token (pat s : str) :
  Re.match_here pat s = true ->
  lower (firstn (length pat) s) = lower pat
  /\ s = firstn (length pat) s ++ skipn (length pat) s.
Proof.
  intros H. split; [|symmetry; apply firstn_skipn].
  revert s H; induction pat as [|p pat IH]; intros s H; [reflexivity|].
  destruct s as [|c s]; simpl in H; [discriminate|].
  apply andb_true_iff in H as [H1 H2]. simpl. apply Ascii.eqb_eq in H1.
  rewrite H1. f_equal. now apply IH.
Qed.

Lemma sanitize_spec_cons (c : ascii) (s : str) :
  sanitize_spec (c :: s)
  = if Re.match_here at_everyone (c :: s)
    then bracket_everyone ++ sanitize_spec (skipn 8 s)
    else if Re.match_here at_here (c :: s)
         then bracket_here ++ sanitize_spec (skipn 4 s)
         else c :: sanitize_spec s.
Proof.
  unfold sanitize_spec at 1. cbn [sanitize_spec_from].
  now rewrite !sanitize_spec_skip.
Qed.

(** The two [re.sub] passes of the source do what the one pass of the spec
    does. *)
Lemma sanitize_refines_spec (s : str) : sanitize_message s = sanitize_spec s.
Proof.
  remember (length s) as n eqn:Hn. revert s Hn.
  induction n as [n IH] using lt_wf_ind. intros s Hn.
  destruct s as [|c s]; [reflexivity|].
  rewrite sanitize_spec_cons.
  destruct (Re.match_here at_everyone (c :: s)) eqn:H1.
  - apply match_here_token in H1 as [Hl Hs].
    pose proof (sanitize_at_everyone [] _ (skipn (length at_everyone) (c :: s)) Hl)
      as Hrw.
    rewrite app_nil_l, <- Hs in Hrw. rewrite Hrw.
    change (sanitize_message []) with (@nil ascii). rewrite app_nil_l. f_equal.
    change (skipn (length at_everyone) (c :: s)) with (skipn 8 s).
    apply (IH (length (skipn 8 s))); [|reflexivity].
    subst n. rewrite length_skipn. simpl. lia.
  - destruct (Re.match_here at_here (c :: s)) eqn:H2.
    + apply match_here_token in H2 as [Hl Hs].
      pose proof (sanitize_at_here [] _ (skipn (length at_here) (c :: s)) Hl)
        as Hrw.
      rewrite app_nil_l, <- Hs in Hrw. rewrite Hrw.
      change (sanitize_message []) with (@nil ascii). rewrite app_nil_l. f_equal.
      change (skipn (length at_here) (c :: s)) with (skipn 4 s).
      apply (IH (length (skipn 4 s))); [|reflexivity].
      subst n. rewrite length_skipn. simpl. lia.
    + rewrite (@sanitize_keep c s H1 H2). f_equal.
      apply (IH (length s)); [subst n; simpl; lia | reflexivity].
Qed.

(** C8. Wherever a token stands in the message, in any mix of cases, the
    result has the bracketed text in its place, between the sanitized
    text before and the sanitized text after; a message without either
    token is returned byte for byte; and on every message the result is
    that of the single left-to-right pass that replaces the tokens and
    keeps every other character. *)
Theorem sanitize_replaces_mentions :
  (forall pre tok post : str,
      lower tok = lit "@everyone" ->
      sanitize_message (pre ++ tok ++ post)
      = sanitize_message pre ++ lit "[at everyone]" ++ sanitize_message post)
  /\
  (forall pre tok post : str,
      lower tok = lit "@here" ->
      sanitize_message (pre ++ tok ++ post)
      = sanitize_message pre ++ lit "[at here]" ++ sanitize_message post)
  /\
  (forall s : str,
      ~ occurs (lit "@everyone") s -> ~ occurs (lit "@here") s ->
      sanitize_message s = s)
  /\
  (forall s : str, sanitize_message s = sanitize_spec s).
Proof.
  split; [|split; [|split]].
  - exact sanitize_at_everyone.
  - exact sanitize_at_here.
  - intros s H1 H2. apply sanitize_match_free; now apply match_free_iff.
  - exact sanitize_refines_spec.
Qed.

(** C9. Sanitizing a sanitized message changes nothing. *)
Theorem sanitize_idempotent (x : str) :
  sanitize_message (sanitize_message x) = sanitize_message x.
Proof.
  destruct (sanitize_clean x) as [H1 H2]. now apply sanitize_match_free.
Qed.

(** ** What a run adds to the trace *)

Lemma only_app (p : call -> bool) (a b : list (call * outcome)) :
  only p a -> only p b -> only p (a ++ b).
Proof. unfold only. intros Ha Hb. now rewrite forallb_app, Ha, Hb. Qed.

Lemma only_weaken (p q : call -> bool) (a : list (call * outcome)) :
  (forall c, p c = true -> q c = true) -> only p a -> only q a.
Proof.
  unfold only. intros Hpq. rewrite !forallb_forall. intros H e He. auto.
Qed.

Lemma only_cons (p : call -> bool) (c : call) (o : outcome) (t : list (call * outcome)) :
  p c = true -> only p t -> only p ((c, o) :: t).
Proof. unfold only. simpl. now intros -> ->. Qed.

Lemma only_in (p : call -> bool) (t : list (call * outcome)) (c : call) (o : outcome) :
  only p t -> In (c, o) t -> p c = true.
Proof.
  unfold only. rewrite forallb_forall. intros H Hin. exact (H _ Hin).
Qed.

Lemma count_calls_app (p : call -> bool) (a b : list (call * outcome)) :
  count_calls p (a ++ b) = count_calls p a + count_calls p b.
Proof. unfold count_calls. now rewrite filter_app, length_app. Qed.

Lemma count_calls_only (p q : call -> bool) (a : list (call * outcome)) :
  (forall c, q c = true -> p c = false) -> only q a -> count_calls p a = 0.
Proof.
  intros Hqp. unfold only, count_calls. induction a as [|e a IH]; [reflexivity|].
  simpl. intros H. apply andb_true_iff in H as [H1 H2].
  rewrite (Hqp _ H1). auto.
Qed.

Lemma extends_refl (p : call -> bool) (w : World) : extends p w w.
Proof.
  split; [|lia]. exists []. split; [now rewrite app_nil_r | reflexivity].
Qed.

Lemma extends_trans (p : call -> bool) (w1 w2 w3 : World) :
  extends p w1 w2 -> extends p w2 w3 -> extends p w1 w3.
Proof.
  intros [(a & Ha & Hpa) Hi] [(b & Hb & Hpb) Hj]. split; [|lia].
  exists (a ++ b). split; [|now apply only_app].
  now rewrite Hb, Ha, app_assoc.
Qed.

Section CallsOnly.

Variable p : call -> bool.

Lemma calls_only_ret {A} (a : A) : calls_only p (ret a).
Proof. intros w. apply extends_refl. Qed.

Lemma calls_only_raise {A} (e : exn) : calls_only p (@raise A e).
Proof. intros w. apply extends_refl. Qed.

Lemma calls_only_bind {A B} (m : M A) (k : A -> M B) :
  calls_only p m -> (forall a, calls_only p (k a)) -> calls_only p (bind m k).
Proof.
  intros Hm Hk w. unfold bind. specialize (Hm w).
  destruct (m w) as [[a|e] w1]; simpl in *; [|exact Hm].
  eapply extends_trans; [exact Hm | apply Hk].
Qed.

Lemma calls_only_try {A} (body : M A) (handler : exn -> M A) :
  calls_only p body -> (forall e, calls_only p (handler e)) ->
  calls_only p (try_except body handler).
Proof.
  intros Hb Hh w. unfold try_except. specialize (Hb w).
  destruct (body w) as [[a|e] w1]; simpl in *; [exact Hb|].
  eapply extends_trans; [exact Hb | apply Hh].
Qed.

Lemma calls_only_perform (c : call) : p c = true -> calls_only p (perform c).
Proof.
  intros Hc w. unfold perform.
  destruct (faults w (length (trace w)) c); unfold log; simpl;
    (split; [|simpl; lia]); eexists; (split; [reflexivity|]);
    unfold only; simpl; now rewrite Hc.
Qed.

Lemma calls_only_state {A} (f : World -> A) : calls_only p (fun w => (Ret (f w), w)).
Proof. intros w. apply extends_refl. Qed.

Lemma calls_only_images (f : World -> list Attachment) :
  calls_only p (fun w => (Ret tt, with_images w (f w))).
Proof.
  intros w. unfold with_images. simpl. split; [|simpl; lia].
  exists []. simpl. now rewrite app_nil_r.
Qed.

Lemma calls_only_wait_for (chk : Message -> bool) :
  p WaitFor = true -> calls_only p (wait_for chk).
Proof.
  intros Hp w. unfold wait_for.
  assert (Hlen : forall i, length (snd (next_qualifying chk i)) <= length i).
  { induction i as [|[x|] i IH]; simpl; try lia.
    destruct (chk x); simpl; lia. }
  specialize (Hlen (inbox w)).
  destruct (next_qualifying chk (inbox w)) as [[m|] rest];
    unfold log, with_inbox; simpl in *;
    (split; [|exact Hlen]); eexists; (split; [reflexivity|]);
    unfold only; simpl; now rewrite Hp.
Qed.

Lemma calls_only_while (n : nat) (body : M loop_ctl) :
  calls_only p body -> calls_only p (while_true n body).
Proof.
  intros Hb. induction n as [|n IH]; simpl.
  - apply calls_only_ret.
  - apply calls_only_bind; [exact Hb|]. intros [|]; [apply calls_only_ret | exact IH].
Qed.

End CallsOnly.

Lemma session_calls_iteration (ctx : ApplicationContext) (dm : Channel) :
  calls_only session_call (iteration ctx dm).
Proof.
  apply calls_only_try.
  - apply calls_only_bind; [now apply calls_only_wait_for|]. intros msg.
    unfold on_message. destruct (str_eqb _ _); [apply calls_only_ret|].
    destruct (_ && _).
    + apply calls_only_bind; [now apply calls_only_perform|].
      intros _. apply calls_only_ret.
    + apply calls_only_bind; [apply calls_only_images|]. intros _.
      apply calls_only_bind; [now apply calls_only_perform|].
      intros _. apply calls_only_ret.
  - intros [d| |d]; simpl; try apply calls_only_raise.
    apply calls_only_bind; [apply (calls_only_state _ images)|]. intros imgs.
    apply calls_only_bind; [|intros _; apply calls_only_ret].
    destruct (is_nil imgs); [apply calls_only_ret | now apply calls_only_perform].
Qed.

Lemma session_calls_collect (ctx : ApplicationContext) (dm : Channel) :
  calls_only session_call (collect ctx dm).
Proof.
  intros w. unfold collect.
  apply (calls_only_while _ (session_calls_iteration ctx dm)).
Qed.

Lemma session_calls_open (ctx : ApplicationContext) :
  calls_only session_call (open_session ctx).
Proof.
  unfold open_session, create_dm.
  apply calls_only_bind.
  { apply calls_only_bind; [now apply calls_only_perform|].
    intros _. apply (calls_only_state _ dm_of_author). }
  intros dm. apply calls_only_bind; [now apply calls_only_perform|]. intros _.
  apply calls_only_bind; [apply (calls_only_images _ (fun _ => []))|]. intros _.
  apply calls_only_bind; [apply session_calls_collect|]. intros ctl.
  apply calls_only_ret.
Qed.

(** ** The loop ends *)

Lemma next_qualifying_shrinks (chk : Message -> bool) (i rest : list incoming)
      (m : Message) :
  next_qualifying chk i = (Some m, rest) -> length rest < length i.
Proof.
  induction i as [|[x|] i IH]; simpl; intros H; try discriminate.
  destruct (chk x).
  - injection H as _ <-. lia.
  - apply IH in H. lia.
Qed.

(** A pass that stays in the loop has taken a message from the inbox. *)
Lemma iteration_continue_consumes (ctx : ApplicationContext) (dm : Channel)
      (w w' : World) :
  iteration ctx dm w = (Ret Continue, w') -> length (inbox w') < length (inbox w).
Proof.
  unfold iteration, try_except, bind. unfold wait_for at 1.
  destruct (next_qualifying (check ctx dm) (inbox w)) as [[msg|] rest] eqn:Hq.
  - apply next_qualifying_shrinks in Hq. set (w1 := log (with_inbox w rest) WaitFor Returned).
    assert (Hm : extends session_call w1 (snd (on_message dm msg w1))).
    { unfold on_message. destruct (str_eqb _ _); [apply extends_refl|].
      destruct (_ && _).
      - apply (calls_only_bind (p := session_call));
          [now apply calls_only_perform | intros _; apply calls_only_ret].
      - apply (calls_only_bind (p := session_call)); [apply calls_only_images|].
        intros _. apply calls_only_bind; [now apply calls_only_perform|].
        intros _. apply calls_only_ret. }
    destruct (on_message dm msg w1) as [[c|e] w2]; simpl in Hm.
    + intros H. injection H as _ <-. destruct Hm as [_ Hm]. simpl in Hm. lia.
    + destruct e; simpl; try discriminate.
      unfold bind, get_images.
      destruct (is_nil (images w2)); simpl; [discriminate|].
      destruct (send dm _ w2) as [[[]|e] w3]; discriminate.
  - simpl. unfold bind, get_images. simpl.
    destruct (is_nil (images w)); simpl; [discriminate|].
    destruct (send dm _ _) as [[[]|e] w3]; discriminate.
Qed.

Lemma while_true_leaves (ctx : ApplicationContext) (dm : Channel) (n : nat) :
  forall w, length (inbox w) < n ->
            fst (while_true n (iteration ctx dm) w) <> Ret Continue.
Proof.
  induction n as [|n IH]; intros w Hn; [lia|].
  simpl. unfold bind.
  destruct (iteration ctx dm w) as [[[|]|e] w'] eqn:Hit; simpl; try discriminate.
  apply IH. apply iteration_continue_consumes in Hit. lia.
Qed.

(** The bounded unrolling in [collect] never stops a running loop: the
    loop is left by a [break] or by an exception. *)
Lemma collect_leaves_loop (ctx : ApplicationContext) (dm : Channel) (w : World) :
  fst (collect ctx dm w) <> Ret Continue.
Proof. unfold collect. apply while_true_leaves. lia. Qed.

(** More passes than the inbox holds events change nothing. *)
Lemma while_true_enough (ctx : ApplicationContext) (dm : Channel) (n : nat) :
  forall m w, length (inbox w) < n -> length (inbox w) < m ->
              while_true n (iteration ctx dm) w = while_true m (iteration ctx dm) w.
Proof.
  induction n as [|n IH]; intros m w Hn Hm; [lia|].
  destruct m as [|m]; [lia|]. simpl. unfold bind.
  destruct (iteration ctx dm w) as [[[|]|e] w'] eqn:Hit; try reflexivity.
  apply iteration_continue_consumes in Hit. apply IH; lia.
Qed.

Lemma collect_any_bound (ctx : ApplicationContext) (dm : Channel) (n : nat) (w : World) :
  length (inbox w) < n -> while_true n (iteration ctx dm) w = collect ctx dm w.
Proof. intros Hn. unfold collect. apply while_true_enough; lia. Qed.

(** A pass that stays in the loop hands the loop over to the world it
    leaves. *)
Lemma collect_continue (ctx : ApplicationContext) (dm : Channel) (w w' : World) :
  iteration ctx dm w = (Ret Continue, w') -> collect ctx dm w = collect ctx dm w'.
Proof.
  intros H. unfold collect at 1. simpl while_true. unfold bind. rewrite H.
  apply collect_any_bound. now apply iteration_continue_consumes in H.
Qed.

(** ** One pass of the evidence loop *)

Lemma wait_for_returns (chk : Message -> bool) (w w1 : World) (msg : Message) :
  wait_for chk w = (Ret msg, w1) ->
  exists rest,
    next_qualifying chk (inbox w) = (Some msg, rest)
    /\ w1 = log (with_inbox w rest) WaitFor Returned.
Proof.
  unfold wait_for. destruct (next_qualifying chk (inbox w)) as [[m|] rest]; intros H.
  - injection H as -> <-. now exists rest.
  - discriminate.
Qed.

Lemma wait_for_times_out (chk : Message -> bool) (w w1 : World) (e : exn) :
  wait_for chk w = (Raise e, w1) ->
  exists rest,
    next_qualifying chk (inbox w) = (None, rest)
    /\ e = TimeoutError
    /\ w1 = log (with_inbox w rest) WaitFor (Raised TimeoutError).
Proof.
  unfold wait_for. destruct (next_qualifying chk (inbox w)) as [[m|] rest]; intros H.
  - discriminate.
  - injection H as <- <-. now exists rest.
Qed.

Lemma with_images_same (w : World) : with_images w (images w) = w.
Proof. now destruct w. Qed.

Lemma collect_break (ctx : ApplicationContext) (dm : Channel) (w w' : World) :
  iteration ctx dm w = (Ret Break, w') -> collect ctx dm w = (Ret Break, w').
Proof.
  intros H. unfold collect. simpl while_true. unfold bind. now rewrite H.
Qed.

Lemma iteration_done (ctx : ApplicationContext) (dm : Channel) (w w1 : World)
      (msg : Message) :
  wait_for (check ctx dm) w = (Ret msg, w1) ->
  lower (content msg) = lit "done" ->
  iteration ctx dm w = (Ret Break, w1).
Proof.
  intros Hw Hd. unfold iteration, on_message, on_exception, try_except, bind. rewrite Hw.
  apply str_eqb_eq in Hd. now rewrite Hd.
Qed.

(** C6. Whatever the session holds, once the wait hands over a message
    whose text is [done] in any case, the loop is left at once: the world
    is the one that wait left, with the collected images as they were and
    nothing more taken from the inbox or sent. *)
Theorem done_closes_session
        (ctx : ApplicationContext) (dm : Channel) (w w1 : World) (msg : Message) :
  wait_for (check ctx dm) w = (Ret msg, w1) ->
  lower (content msg) = lit "done" ->
  collect ctx dm w = (Ret Break, w1) /\ images w1 = images w.
Proof.
  intros Hw Hd. split.
  - apply collect_break. now apply iteration_done with (msg := msg).
  - apply wait_for_returns in Hw as (rest & _ & ->). reflexivity.
Qed.

(** C10. A message of the reporter in the DM channel that carries
    attachments and whose text is [done] qualifies, closes the session by
    the [done] exit, and none of its attachments is collected. *)
Theorem done_precedes_attachments
        (ctx : ApplicationContext) (dm : Channel) (w : World) (msg : Message)
        (rest : list incoming) :
  inbox w = Arrives msg :: rest ->
  member_eqb (author msg) (ctx_author ctx) = true ->
  channel_eqb (channel msg) dm = true ->
  attachments msg <> [] ->
  lower (content msg) = lit "done" ->
  check ctx dm msg = true
  /\ collect ctx dm w = (Ret Break, log (with_inbox w rest) WaitFor Returned)
  /\ images (log (with_inbox w rest) WaitFor Returned) = images w.
Proof.
  intros Hin Ha Hc Hatt Hd.
  assert (Hchk : check ctx dm msg = true).
  { unfold check. rewrite Ha, Hc. destruct (attachments msg); [congruence|reflexivity]. }
  split; [exact Hchk|]. split; [|reflexivity].
  apply collect_break. apply iteration_done with (msg := msg); [|exact Hd].
  unfold wait_for. rewrite Hin. simpl. now rewrite Hchk.
Qed.

(** The pass over a message with attachments that is not [done]. *)
Lemma attachment_pass
        (ctx : ApplicationContext) (dm : Channel) (w w1 : World) (msg : Message) :
  wait_for (check ctx dm) w = (Ret msg, w1) ->
  attachments msg <> [] ->
  lower (content msg) <> lit "done" ->
  let accepted := filter is_acceptable (attachments msg) in
  let notice :=
    match accepted with
    | [] => invalid_format_text
    | _ :: _ => received_text (length accepted)
    end in
  let w' := log (with_images w1 (images w ++ accepted))
                (Send dm (Content notice)) Returned in
  faults w1 (length (trace w1)) (Send dm (Content notice)) = None ->
  iteration ctx dm w = (Ret Continue, w')
  /\ collect ctx dm w = collect ctx dm w'
  /\ (accepted = [] -> images w' = images w).
Proof.
  intros Hw Hatt Hd. cbv zeta.
  remember (filter is_acceptable (attachments msg)) as acc eqn:Hacc.
  intros Hsend.
  assert (Himg : images w1 = images w).
  { apply wait_for_returns in Hw as (rest & _ & ->). reflexivity. }
  assert (Hne : is_nil (attachments msg) = false)
    by (destruct (attachments msg); [congruence | reflexivity]).
  assert (Hit : iteration ctx dm w
                = (Ret Continue,
                   log (with_images w1 (images w ++ acc))
                       (Send dm (Content match acc with
                                         | [] => invalid_format_text
                                         | _ :: _ => received_text (length acc)
                                         end)) Returned)).
  { unfold iteration, on_message, on_exception, try_except, bind. rewrite Hw.
    destruct (str_eqb (lower (content msg)) (lit "done")) eqn:E;
      [apply str_eqb_eq in E; contradiction|].
    unfold valid_images_of. rewrite <- Hacc, Hne.
    destruct acc as [|v vs]; cbn [is_nil andb negb].
    + unfold send, perform. rewrite Hsend.
      rewrite app_nil_r, <- Himg, with_images_same. reflexivity.
    + unfold extend_images, send, perform.
      cbn [faults trace with_images]. rewrite Hsend, Himg. reflexivity. }
  split; [exact Hit|]. split; [now apply collect_continue|].
  intros ->. simpl. apply app_nil_r.
Qed.

(** C3. When the wait hands over a message with attachments that is not
    [done], the pass appends to the collected images exactly the
    attachments the filter accepts, in their order, and answers the
    reporter: with the rejection notice when none was accepted, else with
    the acknowledgement, whose text holds the number accepted, in decimal,
    followed by [image] or [images].  The pass stays in the loop, which
    goes on from the world it left. *)
Theorem attachments_are_partitioned
        (ctx : ApplicationContext) (dm : Channel) (w w1 : World) (msg : Message) :
  wait_for (check ctx dm) w = (Ret msg, w1) ->
  attachments msg <> [] ->
  lower (content msg) <> lit "done" ->
  let accepted := filter is_acceptable (attachments msg) in
  let notice :=
    match accepted with
    | [] =>
        lit "⚠️ Invalid file format! Please only send PNG, JPG, JPEG, or GIF images."
    | _ :: _ =>
        lit "✅ Received " ++ str_of_nat (length accepted) ++ lit " image"
        ++ (if length accepted =? 1 then [] else lit "s")
        ++ lit ". Send more or type `done` to finish."
    end in
  let w' := log (with_images w1 (images w ++ accepted))
                (Send dm (Content notice)) Returned in
  faults w1 (length (trace w1)) (Send dm (Content notice)) = None ->
  iteration ctx dm w = (Ret Continue, w')
  /\ collect ctx dm w = collect ctx dm w'
  /\ (accepted = [] -> images w' = images w).
Proof.
  intros Hw Hatt Hd accepted notice w' Hsend.
  assert (Hnotice : notice
                    = match accepted with
                      | [] => invalid_format_text
                      | _ :: _ => received_text (length accepted)
                      end).
  { subst notice accepted.
    destruct (filter is_acceptable (attachments msg)); reflexivity. }
  subst w'. rewrite Hnotice in *.
  exact (@attachment_pass ctx dm w w1 msg Hw Hatt Hd Hsend).
Qed.

(** C5. When the wait runs out, the loop is left.  With nothing collected
    nothing is sent after the wait; with images collected the time-out
    notice goes to the reporter first.  Either way the collected images are
    untouched. *)
Theorem timeout_closes_session
        (ctx : ApplicationContext) (dm : Channel) (w w1 : World) :
  wait_for (check ctx dm) w = (Raise TimeoutError, w1) ->
  (images w = [] -> collect ctx dm w = (Ret Break, w1))
  /\ (images w <> [] ->
      faults w1 (length (trace w1)) (Send dm (Content times_up_text)) = None ->
      collect ctx dm w
      = (Ret Break, log w1 (Send dm (Content times_up_text)) Returned))
  /\ images w1 = images w
  /\ trace w1 = trace w ++ [(WaitFor, Raised TimeoutError)].
Proof.
  intros Hw.
  assert (Hw1 : images w1 = images w
                /\ trace w1 = trace w ++ [(WaitFor, Raised TimeoutError)]).
  { apply wait_for_times_out in Hw as (rest & _ & _ & ->). split; reflexivity. }
  destruct Hw1 as [Himg Htr].
  repeat split; try assumption.
  - intros Hnil. apply collect_break.
    unfold iteration, on_message, on_exception, try_except, bind. rewrite Hw.
    unfold get_images. rewrite Himg, Hnil. reflexivity.
  - intros Hne Hsend. apply collect_break.
    unfold iteration, on_message, on_exception, try_except, bind. rewrite Hw.
    unfold get_images. rewrite Himg.
    destruct (images w) as [|i imgs]; [contradiction|]. simpl.
    unfold send, perform. now rewrite Hsend.
Qed.

(** ** Delivery *)

Lemma emit_nil (w : World) : emit w [] = w.
Proof. unfold emit, with_trace. rewrite app_nil_r. now destruct w. Qed.

Lemma emit_emit (w : World) (a b : list (call * outcome)) :
  emit (emit w a) b = emit w (a ++ b).
Proof. unfold emit, with_trace. simpl. now rewrite app_assoc. Qed.

Lemma perform_cases (c : call) (w : World) :
  perform c w = (Ret tt, emit w [(c, Returned)])
  \/ exists e, perform c w = (Raise e, emit w [(c, Raised e)]).
Proof.
  unfold perform. destruct (faults w (length (trace w)) c) as [e|].
  - right. now exists e.
  - now left.
Qed.

Lemma handler_run (ctx : ApplicationContext) (e : exn) (w : World) :
  exists hs, snd (report_handler ctx e w) = emit w hs /\ only handler_call hs.
Proof.
  assert (Hgen : exists hs,
             snd ((perform (LoggerError (error_log_text ctx e)) ;;
                   perform (Respond generic_error_text)) w) = emit w hs
             /\ only handler_call hs).
  { unfold bind.
    destruct (perform_cases (LoggerError (error_log_text ctx e)) w) as [H|[x H]];
      rewrite H.
    - destruct (perform_cases (Respond generic_error_text)
                              (emit w [(LoggerError (error_log_text ctx e), Returned)]))
        as [H2|[x H2]]; rewrite H2; cbn [snd]; eexists; rewrite emit_emit;
        split; reflexivity.
    - eexists; split; reflexivity. }
  destruct e; simpl; try exact Hgen.
  destruct (perform_cases (Respond dm_forbidden_text) w) as [H|[x H]]; rewrite H;
    eexists; split; reflexivity.
Qed.

Lemma to_files_run (imgs : list Attachment) :
  forall w,
    to_files imgs w
    = (Ret (map file_of imgs), emit w (map (fun a => (ToFile a, Returned)) imgs))
    \/ exists converted a rest e,
        imgs = converted ++ a :: rest
        /\ to_files imgs w
           = (Raise e,
              emit w (map (fun a => (ToFile a, Returned)) converted
                      ++ [(ToFile a, Raised e)])).
Proof.
  induction imgs as [|a imgs IH]; intros w.
  - left. simpl. unfold ret. now rewrite emit_nil.
  - destruct (perform_cases (ToFile a) w) as [H|[x H]].
    + destruct (IH (emit w [(ToFile a, Returned)]))
        as [H2|(converted & b & rest & e & Himgs & H2)].
      * left. simpl. unfold to_file, bind, ret. rewrite H, H2.
        now rewrite emit_emit.
      * right. exists (a :: converted), b, rest, e.
        split; [now rewrite Himgs|].
        simpl. unfold to_file, bind, ret. rewrite H, H2.
        now rewrite emit_emit.
    + right. exists [], a, imgs, x. split; [reflexivity|].
      simpl. unfold to_file, bind. now rewrite H.
Qed.

(** Closes a run: the constructor names the trace, the logged calls are
    compared up to the bracketing of the appends. *)
Ltac close_run c :=
  eexists; split; [|c];
  [ unfold emit, with_trace, evidence_part; cbn [is_nil trace];
    f_equal; rewrite <- ?app_assoc; simpl; rewrite <- ?app_assoc; reflexivity
  | .. ].

(** The run of the delivery block under the [except] clauses, from the
    world in which the loop was left. *)
Lemma deliver_run (ctx : ApplicationContext) (mod_channel dm : Channel)
      (text : str) (user : option Member) (w2 : World) :
  exists added,
    snd (try_except (deliver ctx mod_channel dm text user) (report_handler ctx) w2)
    = emit w2 added
    /\ delivery_trace mod_channel dm
         (build_embed ctx text user (images w2) (clock w2)) (images w2) added.
Proof.
  set (embed := build_embed ctx text user (images w2) (clock w2)).
  unfold try_except, deliver, bind, get_images, utcnow, send. fold embed.
  destruct (perform_cases (Send mod_channel (EmbedOnly embed)) w2) as [H1|[e1 H1]];
    rewrite H1.
  2:{ destruct (handler_run ctx e1 (emit w2 [(Send mod_channel (EmbedOnly embed), Raised e1)]))
        as (hs & Hhs & Honly).
      rewrite Hhs.
      close_run ltac:(apply (Phase1_raises mod_channel dm embed (images w2) e1 (hs := hs))).
      exact Honly. }
  set (w3 := emit w2 [(Send mod_channel (EmbedOnly embed), Returned)]).
  destruct (images w2) as [|i imgs] eqn:Himgs; cbn [is_nil].
  - unfold ret at 1.
    destruct (perform_cases (Send dm (Content (sent_text []))) w3) as [H3|[e3 H3]];
      rewrite H3.
    + unfold w3.
      close_run ltac:(apply (Delivered mod_channel dm embed [] Returned (hs := []))).
      reflexivity.
    + destruct (handler_run ctx e3 (emit w3 [(Send dm (Content (sent_text [])), Raised e3)]))
        as (hs & Hhs & Honly).
      rewrite Hhs. unfold w3.
      close_run ltac:(apply (Delivered mod_channel dm embed [] (Raised e3) (hs := hs))).
      exact Honly.
  - destruct (to_files_run (i :: imgs) w3)
      as [Hf|(converted & a & rest & ef & Hsplit & Hf)]; rewrite Hf.
    2:{ destruct (handler_run ctx ef
                    (emit w3 (map (fun a => (ToFile a, Returned)) converted
                              ++ [(ToFile a, Raised ef)])))
          as (hs & Hhs & Honly).
        rewrite Hhs. unfold w3.
        close_run ltac:(apply (To_file_raises mod_channel dm embed
                                 converted a rest ef (hs := hs))).
        - exact Hsplit.
        - exact Honly. }
    set (oks := map (fun a => (ToFile a, Returned)) (i :: imgs)).
    set (files := map file_of (i :: imgs)).
    destruct (perform_cases (Send mod_channel (FilesOnly files)) (emit w3 oks))
      as [H2|[e2 H2]]; rewrite H2.
    2:{ destruct (handler_run ctx e2
                    (emit (emit w3 oks) [(Send mod_channel (FilesOnly files), Raised e2)]))
          as (hs & Hhs & Honly).
        rewrite Hhs. unfold w3.
        close_run ltac:(apply (Phase2_raises mod_channel dm embed e2 (hs := hs))).
        - discriminate.
        - exact Honly. }
    set (w4 := emit (emit w3 oks) [(Send mod_channel (FilesOnly files), Returned)]).
    destruct (perform_cases (Send dm (Content (sent_text (i :: imgs)))) w4)
      as [H3|[e3 H3]]; rewrite H3.
    + unfold w4, w3.
      close_run ltac:(apply (Delivered mod_channel dm embed (i :: imgs) Returned (hs := []))).
      reflexivity.
    + destruct (handler_run ctx e3
                  (emit w4 [(Send dm (Content (sent_text (i :: imgs))), Raised e3)]))
        as (hs & Hhs & Honly).
      rewrite Hhs. unfold w4, w3.
      close_run ltac:(apply (Delivered mod_channel dm embed (i :: imgs) (Raised e3) (hs := hs))).
      exact Honly.
Qed.

(** ** The whole command *)

Lemma report_after_close (settings : Settings) (ctx : ApplicationContext)
      (message : str) (user : option Member) (w : World)
      (mod_channel dm : Channel) (w2 : World) :
  session_closes settings ctx w mod_channel dm w2 ->
  report settings ctx message user w
  = try_except (deliver ctx mod_channel dm (sanitize_message message) user)
               (report_handler ctx) w2.
Proof.
  intros (Hget & wa & wb & Hd & Hr & Ho).
  unfold report. unfold bind at 1. rewrite Hd, Hget.
  unfold bind at 1. rewrite Hr.
  unfold try_except, bind. now rewrite Ho.
Qed.

Lemma perform_extends (p : call -> bool) (c : call) (w w' : World) (r : result unit) :
  p c = true -> perform c w = (r, w') -> extends p w w'.
Proof.
  intros Hp H. pose proof (calls_only_perform p c Hp w) as E. now rewrite H in E.
Qed.

Lemma session_closes_trace (settings : Settings) (ctx : ApplicationContext)
      (w : World) (mod_channel dm : Channel) (w2 : World) :
  session_closes settings ctx w mod_channel dm w2 ->
  exists before, trace w2 = trace w ++ before /\ only session_call before.
Proof.
  intros (_ & wa & wb & Hd & Hr & Ho).
  apply (perform_extends session_call) in Hd; [|reflexivity].
  apply (perform_extends session_call) in Hr; [|reflexivity].
  pose proof (session_calls_open ctx wb) as H3. rewrite Ho in H3. simpl in H3.
  exact (proj1 (extends_trans (extends_trans Hd Hr) H3)).
Qed.

(** Either the session closes, or the run only makes calls outside the
    delivery block. *)
Lemma report_run (settings : Settings) (ctx : ApplicationContext)
      (message : str) (user : option Member) (w : World) :
  (exists mod_channel dm w2, session_closes settings ctx w mod_channel dm w2)
  \/ exists added,
      trace (snd (report settings ctx message user w)) = trace w ++ added
      /\ only quiet_call added.
Proof.
  assert (Hq : forall c, session_call c = true -> quiet_call c = true).
  { intros c Hc. unfold quiet_call. now rewrite Hc. }
  assert (Hh : forall c, handler_call c = true -> quiet_call c = true).
  { intros c Hc. unfold quiet_call. rewrite Hc. apply orb_true_r. }
  unfold report. unfold bind at 1.
  destruct (perform Defer w) as [[[]|e] wa] eqn:Hd.
  2:{ right. apply (perform_extends quiet_call) in Hd; [|reflexivity]. exact (proj1 Hd). }
  destruct (utils_get (guild_channels ctx) (REPORTS settings)) as [mod_channel|] eqn:Hget.
  2:{ right. apply (perform_extends quiet_call) in Hd; [|reflexivity].
      pose proof (calls_only_perform quiet_call (Respond no_mod_channel_text)
                                     eq_refl wa) as H2.
      exact (proj1 (extends_trans Hd H2)). }
  unfold bind at 1.
  destruct (perform (Respond will_dm_text) wa) as [[[]|e] wb] eqn:Hr.
  2:{ right. apply (perform_extends quiet_call) in Hd; [|reflexivity].
      apply (perform_extends quiet_call) in Hr; [|reflexivity].
      exact (proj1 (extends_trans Hd Hr)). }
  unfold try_except, bind.
  destruct (open_session ctx wb) as [[[dm [|]]|e] w2] eqn:Ho.
  - left. exists mod_channel, dm, w2. split; [exact Hget|]. now exists wa, wb.
  - right. apply (perform_extends quiet_call) in Hd; [|reflexivity].
    apply (perform_extends quiet_call) in Hr; [|reflexivity].
    pose proof (session_calls_open ctx wb) as H3. rewrite Ho in H3. simpl in H3.
    destruct H3 as [(a & Ha & Hpa) Hlen].
    assert (H3 : extends quiet_call wb w2).
    { split; [|exact Hlen]. exists a. split; [exact Ha|].
      now apply only_weaken with (p := session_call). }
    exact (proj1 (extends_trans (extends_trans Hd Hr) H3)).
  - right. apply (perform_extends quiet_call) in Hd; [|reflexivity].
    apply (perform_extends quiet_call) in Hr; [|reflexivity].
    pose proof (session_calls_open ctx wb) as H3. rewrite Ho in H3. simpl in H3.
    destruct H3 as [(a & Ha & Hpa) Hlen].
    destruct (handler_run ctx e w2) as (hs & Hhs & Hhonly).
    destruct (extends_trans Hd Hr) as [(b & Hb & Hpb) _].
    exists (b ++ a ++ hs). rewrite Hhs. unfold emit, with_trace. simpl.
    split.
    + now rewrite Ha, Hb, <- !app_assoc.
    + apply only_app; [exact Hpb|]. apply only_app.
      * now apply only_weaken with (p := session_call).
      * now apply only_weaken with (p := handler_call).
Qed.

(** ** Counting the sends to the moderator channel *)

Lemma count_calls_cons (p : call -> bool) (c : call) (o : outcome)
      (t : list (call * outcome)) :
  count_calls p ((c, o) :: t) = (if p c then 1 else 0) + count_calls p t.
Proof. unfold count_calls. simpl. now destruct (p c). Qed.

Lemma only_to_file_map (imgs : list Attachment) :
  only to_file_call (map (fun a => (ToFile a, Returned)) imgs).
Proof. unfold only. now induction imgs. Qed.

Lemma session_not_phase (mod_channel : Channel) (c : call) :
  session_call c = true ->
  is_phase1 mod_channel c = false /\ is_phase2 mod_channel c = false.
Proof. destruct c as [| | |ch [| |]| | |]; simpl; intros H; split; congruence. Qed.

Lemma handler_not_phase1 (mod_channel : Channel) (c : call) :
  handler_call c = true -> is_phase1 mod_channel c = false.
Proof. destruct c; simpl; congruence. Qed.

Lemma handler_not_phase2 (mod_channel : Channel) (c : call) :
  handler_call c = true -> is_phase2 mod_channel c = false.
Proof. destruct c; simpl; congruence. Qed.

Lemma to_file_not_phase1 (mod_channel : Channel) (c : call) :
  to_file_call c = true -> is_phase1 mod_channel c = false.
Proof. destruct c; simpl; congruence. Qed.

Lemma to_file_not_phase2 (mod_channel : Channel) (c : call) :
  to_file_call c = true -> is_phase2 mod_channel c = false.
Proof. destruct c; simpl; congruence. Qed.

Lemma channel_eqb_refl (ch : Channel) : channel_eqb ch ch = true.
Proof. apply N.eqb_refl. Qed.

Lemma count_calls_nil (p : call -> bool) : count_calls p [] = 0.
Proof. reflexivity. Qed.

Lemma count_phase1_handler (mod_channel : Channel) (hs : list (call * outcome)) :
  only handler_call hs -> count_calls (is_phase1 mod_channel) hs = 0.
Proof. apply count_calls_only. apply handler_not_phase1. Qed.

Lemma count_phase2_handler (mod_channel : Channel) (hs : list (call * outcome)) :
  only handler_call hs -> count_calls (is_phase2 mod_channel) hs = 0.
Proof. apply count_calls_only. apply handler_not_phase2. Qed.

Lemma count_phase1_to_files (mod_channel : Channel) (imgs : list Attachment) :
  count_calls (is_phase1 mod_channel) (map (fun a => (ToFile a, Returned)) imgs) = 0.
Proof.
  apply count_calls_only with (q := to_file_call);
    [apply to_file_not_phase1 | apply only_to_file_map].
Qed.

Lemma count_phase2_to_files (mod_channel : Channel) (imgs : list Attachment) :
  count_calls (is_phase2 mod_channel) (map (fun a => (ToFile a, Returned)) imgs) = 0.
Proof.
  apply count_calls_only with (q := to_file_call);
    [apply to_file_not_phase2 | apply only_to_file_map].
Qed.

Ltac count_phase :=
  repeat first
    [ rewrite count_calls_app
    | rewrite count_calls_cons
    | rewrite count_calls_nil
    | rewrite count_phase1_to_files
    | rewrite count_phase2_to_files
    | match goal with
      | H : only handler_call ?hs |- context [count_calls (is_phase1 ?m) ?hs] =>
          rewrite (@count_phase1_handler m hs H)
      | H : only handler_call ?hs |- context [count_calls (is_phase2 ?m) ?hs] =>
          rewrite (@count_phase2_handler m hs H)
      end ];
  cbn [is_phase1 is_phase2]; rewrite ?channel_eqb_refl.

Lemma files_not_in_handler (ch : Channel) (files : list File) (o : outcome)
      (hs : list (call * outcome)) :
  only handler_call hs -> ~ In (Send ch (FilesOnly files), o) hs.
Proof.
  intros Hhs Hin. pose proof (@only_in handler_call hs _ o Hhs Hin) as H.
  discriminate.
Qed.

Lemma files_not_in_to_files (ch : Channel) (files : list File) (o : outcome)
      (imgs : list Attachment) :
  ~ In (Send ch (FilesOnly files), o) (map (fun a => (ToFile a, Returned)) imgs).
Proof. intros Hin. apply in_map_iff in Hin as (a & Ha & _). discriminate. Qed.

(** After the loop: one send of the embed, then at most one send of the
    files, which carries the collected images, needs images and is made
    whenever the calls before it returned. *)
Lemma delivery_trace_counts (mod_channel dm : Channel) (embed : Embed)
      (imgs : list Attachment) (added : list (call * outcome)) :
  delivery_trace mod_channel dm embed imgs added ->
  exists o1 later,
    added = (Send mod_channel (EmbedOnly embed), o1) :: later
    /\ count_calls (is_phase1 mod_channel) later = 0
    /\ count_calls (is_phase2 mod_channel) later <= 1
    /\ (count_calls (is_phase2 mod_channel) later = 1 -> 0 < length imgs)
    /\ (o1 = Returned ->
        (forall a e, ~ In (ToFile a, Raised e) later) ->
        0 < length imgs ->
        count_calls (is_phase2 mod_channel) later = 1)
    /\ (forall ch files o,
          In (Send ch (FilesOnly files), o) later -> files = map file_of imgs).
Proof.
  intros [e hs Hhs | converted a rest e hs Hsplit Hhs | e hs Hne Hhs | o hs Hhs];
    eexists; eexists; (split; [reflexivity|]).
  - count_phase. repeat split; try lia.
    + intros H; discriminate H.
    + intros ch files o Hin. now apply files_not_in_handler in Hin.
  - count_phase. repeat split; try lia.
    + intros _ Hno _. exfalso. apply (Hno a e). apply in_or_app. right. now left.
    + intros ch files o Hin. exfalso.
      apply in_app_or in Hin as [Hin|[Hin|Hin]].
      * now apply files_not_in_to_files in Hin.
      * discriminate.
      * now apply files_not_in_handler in Hin.
  - count_phase. repeat split; try lia.
    + destruct imgs; [contradiction | simpl; lia].
    + intros ch files o Hin.
      apply in_app_or in Hin as [Hin|[Hin|Hin]].
      * now apply files_not_in_to_files in Hin.
      * now injection Hin as _ <- _.
      * now apply files_not_in_handler in Hin.
  - unfold evidence_part. destruct imgs as [|i imgs]; cbn [is_nil].
    + simpl app. count_phase. simpl. repeat split; try lia.
      intros ch files o' [Hin|Hin]; [discriminate|].
      now apply files_not_in_handler in Hin.
    + count_phase. simpl length. repeat split; try lia.
      intros ch files o' Hin.
      apply in_app_or in Hin as [Hin|[Hin|Hin]].
      * apply in_app_or in Hin as [Hin|[Hin|[]]].
        -- now apply files_not_in_to_files in Hin.
        -- now injection Hin as _ <-.
      * discriminate.
      * now apply files_not_in_handler in Hin.
Qed.

(** C2. Once the loop is left, the run sends the embed to the moderator
    channel exactly once; its content field carries the message as the
    one-pass sanitizer of the spec gives it, a text that holds neither
    [@everyone] nor [@here] in any case; nothing was sent there before;
    the files are sent at most once, after the embed, only when images
    were collected, and always then if the embed send and the file
    conversions returned; a files send carries the collected images, in
    their order. *)
Theorem two_phase_delivery
        (settings : Settings) (ctx : ApplicationContext) (message : str)
        (user : option Member) (w : World) (mod_channel dm : Channel) (w2 : World) :
  session_closes settings ctx w mod_channel dm w2 ->
  exists before embed o1 later,
    trace (snd (report settings ctx message user w))
    = trace w ++ before ++ (Send mod_channel (EmbedOnly embed), o1) :: later
    /\ trace w2 = trace w ++ before
    /\ count_calls (is_phase1 mod_channel) before = 0
    /\ count_calls (is_phase2 mod_channel) before = 0
    /\ hd_error (fields embed)
       = Some (mkField (lit "📝 Content") (sanitize_message message) false)
    /\ hd_error (fields embed)
       = Some (mkField (lit "📝 Content") (sanitize_spec message) false)
    /\ (forall text,
          hd_error (fields embed) = Some (mkField (lit "📝 Content") text false) ->
          ~ occurs (lit "@everyone") text /\ ~ occurs (lit "@here") text)
    /\ count_calls (is_phase1 mod_channel) later = 0
    /\ count_calls (is_phase2 mod_channel) later <= 1
    /\ (count_calls (is_phase2 mod_channel) later = 1 -> 0 < length (images w2))
    /\ (o1 = Returned ->
        (forall a e, ~ In (ToFile a, Raised e) later) ->
        0 < length (images w2) ->
        count_calls (is_phase2 mod_channel) later = 1)
    /\ (forall ch files o,
          In (Send ch (FilesOnly files), o) later ->
          files = map file_of (images w2)).
Proof.
  intros Hclose.
  rewrite (report_after_close message user Hclose).
  destruct (session_closes_trace Hclose) as (before & Hbefore & Honly).
  destruct (deliver_run ctx mod_channel dm (sanitize_message message) user w2)
    as (added & Hrun & Htrace).
  apply delivery_trace_counts in Htrace
    as (o1 & later & -> & Hp1 & Hp2 & Hp2imgs & Hp2sent & Hfiles).
  exists before, (build_embed ctx (sanitize_message message) user (images w2) (clock w2)),
    o1, later.
  rewrite Hrun. unfold emit, with_trace. cbn [trace].
  rewrite Hbefore, <- app_assoc.
  split; [reflexivity|]. split; [reflexivity|].
  split.
  { apply count_calls_only with (q := session_call); [|exact Honly].
    intros c Hc. now apply session_not_phase. }
  split.
  { apply count_calls_only with (q := session_call); [|exact Honly].
    intros c Hc. now apply session_not_phase. }
  split; [reflexivity|].
  split.
  { cbn [build_embed fields app hd_error]. now rewrite sanitize_refines_spec. }
  split.
  { cbn [build_embed fields app hd_error]. intros text Htext.
    injection Htext as <-. destruct (sanitize_clean message) as [H1 H2].
    split; now apply match_free_iff. }
  repeat split; assumption.
Qed.

(** ** The success confirmation *)

Lemma split_unique {A} (p : A -> bool) (a : list A) (x : A) (b pre : list A)
      (y : A) (post : list A) :
  a ++ x :: b = pre ++ y :: post ->
  forallb (fun z => negb (p z)) a = true ->
  forallb (fun z => negb (p z)) b = true ->
  p y = true ->
  pre = a /\ y = x /\ post = b.
Proof.
  revert pre. induction a as [|a0 a IH]; intros pre Heq Ha Hb Hy.
  - destruct pre as [|z pre]; simpl in Heq; injection Heq as Hx Hrest.
    + now subst.
    + exfalso. rewrite forallb_forall in Hb.
      assert (Hin : In y b) by (rewrite Hrest; apply in_or_app; right; now left).
      apply Hb in Hin. rewrite Hy in Hin. discriminate.
  - simpl in Ha. apply andb_true_iff in Ha as [Ha0 Ha].
    destruct pre as [|z pre]; simpl in Heq; injection Heq as Hx Hrest.
    + subst a0. rewrite Hy in Ha0. discriminate.
    + destruct (IH pre Hrest Ha Hb Hy) as (-> & -> & ->). now subst.
Qed.

Lemma session_not_confirmation (c : call) :
  session_call c = true -> not_confirmation c = true.
Proof.
  destruct c as [| | |ch [| |]| | |];
    unfold session_call, not_confirmation, is_confirmation; intros H;
    first [exact H | reflexivity | discriminate H].
Qed.

Lemma handler_not_confirmation (c : call) :
  handler_call c = true -> not_confirmation c = true.
Proof. destruct c; intros H; first [discriminate H | reflexivity]. Qed.

Lemma to_file_not_confirmation (c : call) :
  to_file_call c = true -> not_confirmation c = true.
Proof. destruct c; intros H; first [discriminate H | reflexivity]. Qed.

Lemma quiet_not_confirmation (c : call) :
  quiet_call c = true -> not_confirmation c = true.
Proof.
  unfold quiet_call. intros H. apply orb_true_iff in H as [H|H].
  - now apply session_not_confirmation.
  - now apply handler_not_confirmation.
Qed.

Lemma evidence_part_not_confirmation (mod_channel : Channel) (imgs : list Attachment) :
  only not_confirmation (evidence_part mod_channel imgs).
Proof.
  unfold evidence_part. destruct (is_nil imgs); [reflexivity|].
  apply only_app; [|reflexivity].
  apply only_weaken with (p := to_file_call);
    [apply to_file_not_confirmation | apply only_to_file_map].
Qed.

Lemma sent_text_count (imgs : list Attachment) :
  0 < length imgs ->
  exists a b, sent_text imgs = a ++ str_of_nat (length imgs) ++ b.
Proof.
  intros H. destruct imgs as [|i imgs]; [simpl in H; lia|].
  unfold sent_text. cbn [is_nil].
  exists (sent_head ++ lit "📎 Included "), (lit " image" ++ plural (length (i :: imgs))).
  now rewrite <- !app_assoc.
Qed.

(** C7, as the code has it. Wherever a success confirmation stands in the
    trace of a run, the session had closed, and between the calls of the
    session and the confirmation stand exactly the delivery calls, all of
    them returned: the embed, and with images every conversion and the
    files. The confirmation is the text for the collected images, and it
    holds their number when there is at least one. *)
Theorem confirmation_after_delivery
        (settings : Settings) (ctx : ApplicationContext) (message : str)
        (user : option Member) (w : World)
        (pre : list (call * outcome)) (c : call) (o : outcome)
        (post : list (call * outcome)) :
  trace (snd (report settings ctx message user w)) = trace w ++ pre ++ (c, o) :: post ->
  is_confirmation c = true ->
  exists mod_channel dm w2 before,
    session_closes settings ctx w mod_channel dm w2
    /\ trace w2 = trace w ++ before
    /\ pre = before
             ++ (Send mod_channel
                      (EmbedOnly (build_embed ctx (sanitize_message message) user
                                              (images w2) (clock w2))),
                 Returned)
             :: evidence_part mod_channel (images w2)
    /\ c = Send dm (Content (sent_text (images w2)))
    /\ (0 < length (images w2) ->
        exists a b, sent_text (images w2) = a ++ str_of_nat (length (images w2)) ++ b).
Proof.
  intros Htrace Hc.
  destruct (report_run settings ctx message user w)
    as [(mod_channel & dm & w2 & Hclose) | (added & Hadded & Hquiet)].
  2:{ exfalso. rewrite Hadded in Htrace. apply app_inv_head in Htrace. subst added.
      assert (Hq : quiet_call c = true).
      { apply (@only_in quiet_call (pre ++ (c, o) :: post) c o); [exact Hquiet|].
        apply in_or_app. right. now left. }
      apply quiet_not_confirmation in Hq. unfold not_confirmation in Hq.
      rewrite Hc in Hq. discriminate. }
  exists mod_channel, dm, w2.
  destruct (session_closes_trace Hclose) as (before & Hbefore & Honly).
  exists before. split; [exact Hclose|]. split; [exact Hbefore|].
  rewrite (report_after_close message user Hclose) in Htrace.
  destruct (deliver_run ctx mod_channel dm (sanitize_message message) user w2)
    as (added & Hrun & Hd).
  rewrite Hrun in Htrace. unfold emit, with_trace in Htrace. cbn [trace] in Htrace.
  rewrite Hbefore, <- app_assoc in Htrace. apply app_inv_head in Htrace.
  assert (Hbefore_nc : only not_confirmation before).
  { apply only_weaken with (p := session_call);
      [apply session_not_confirmation | exact Honly]. }
  set (embed := build_embed ctx (sanitize_message message) user (images w2) (clock w2)) in *.
  (* a run that did not reach the confirmation holds none *)
  assert (Hnone : forall t, only not_confirmation t -> before ++ t <> pre ++ (c, o) :: post).
  { intros t Ht E.
    assert (Hin : In (c, o) (before ++ t)) by (rewrite E; apply in_or_app; right; now left).
    pose proof (@only_in not_confirmation _ c o (only_app Hbefore_nc Ht) Hin) as Hnc.
    unfold not_confirmation in Hnc. rewrite Hc in Hnc. discriminate. }
  destruct Hd as [e hs Hhs | converted a rest e hs Hsplit Hhs | e hs Hne Hhs | o' hs Hhs].
  - exfalso. refine (Hnone _ _ Htrace).
    apply only_cons; [reflexivity|].
    now apply only_weaken with (p := handler_call);
      [apply handler_not_confirmation|].
  - exfalso. refine (Hnone _ _ Htrace).
    apply only_cons; [reflexivity|]. apply only_app.
    + apply only_weaken with (p := to_file_call);
        [apply to_file_not_confirmation | apply only_to_file_map].
    + apply only_cons; [reflexivity|].
      now apply only_weaken with (p := handler_call);
        [apply handler_not_confirmation|].
  - exfalso. refine (Hnone _ _ Htrace).
    apply only_cons; [reflexivity|]. apply only_app.
    + apply only_weaken with (p := to_file_call);
        [apply to_file_not_confirmation | apply only_to_file_map].
    + apply only_cons; [reflexivity|].
      now apply only_weaken with (p := handler_call);
        [apply handler_not_confirmation|].
  - change (before
            ++ (Send mod_channel (EmbedOnly embed), Returned)
            :: evidence_part mod_channel (images w2)
            ++ (Send dm (Content (sent_text (images w2))), o') :: hs)
      with (before
            ++ ((Send mod_channel (EmbedOnly embed), Returned)
                  :: evidence_part mod_channel (images w2))
            ++ (Send dm (Content (sent_text (images w2))), o') :: hs) in Htrace.
    rewrite app_assoc in Htrace.
    apply (split_unique (fun e => is_confirmation (fst e))) in Htrace
      as (Hpre & Hco & Hpost).
    + split; [exact Hpre|]. split; [now injection Hco|]. apply sent_text_count.
    + change (only not_confirmation
                (before ++ (Send mod_channel (EmbedOnly embed), Returned)
                        :: evidence_part mod_channel (images w2))).
      apply (only_app Hbefore_nc).
      apply only_cons; [reflexivity|]. apply evidence_part_not_confirmation.
    + change (only not_confirmation hs).
      now apply only_weaken with (p := handler_call);
        [apply handler_not_confirmation|].
    + exact Hc.
Qed.

(** ** The error handler *)

(** Any exception but [discord.Forbidden] is logged with the reporter's id
    and its text, then answered with the generic message. *)
Lemma handler_logs_and_reports (ctx : ApplicationContext) (e : exn) (w : World) :
  (forall d, e <> Forbidden d) ->
  exists o1 tl,
    snd (report_handler ctx e w)
    = emit w ((LoggerError (lit "Error processing report from "
                            ++ str_of_N (member_id (ctx_author ctx))
                            ++ lit ": " ++ str_of_exn e), o1) :: tl)
    /\ (o1 = Returned -> exists o2, tl = [(Respond generic_error_text, o2)]).
Proof.
  intros Hne.
  assert (Hgen : report_handler ctx e w
                 = (perform (LoggerError (error_log_text ctx e)) ;;
                    perform (Respond generic_error_text)) w).
  { destruct e; try reflexivity. now destruct (Hne detail). }
  rewrite Hgen. unfold bind.
  destruct (perform_cases (LoggerError (error_log_text ctx e)) w) as [H|[x H]]; rewrite H.
  - destruct (perform_cases (Respond generic_error_text)
                            (emit w [(LoggerError (error_log_text ctx e), Returned)]))
      as [H2|[y H2]]; rewrite H2; cbn [snd]; rewrite emit_emit;
      eexists; eexists; (split; [reflexivity|]); intros _; eexists; reflexivity.
  - eexists; eexists. split; [reflexivity|]. discriminate.
Qed.

(** A raising embed send hands its exception to the [except] clauses, and
    nothing else is sent to the moderator channel. *)
Lemma phase1_failure_is_handled
      (settings : Settings) (ctx : ApplicationContext) (message : str)
      (user : option Member) (w : World) (mod_channel dm : Channel) (w2 : World)
      (e : exn) :
  session_closes settings ctx w mod_channel dm w2 ->
  let embed := build_embed ctx (sanitize_message message) user (images w2) (clock w2) in
  faults w2 (length (trace w2)) (Send mod_channel (EmbedOnly embed)) = Some e ->
  report settings ctx message user w
  = report_handler ctx e (emit w2 [(Send mod_channel (EmbedOnly embed), Raised e)]).
Proof.
  intros Hclose embed Hf.
  rewrite (report_after_close message user Hclose).
  unfold try_except, deliver, bind, get_images, utcnow, send, perform.
  fold embed. now rewrite Hf.
Qed.

(** A [discord.Forbidden] from the embed send is answered by the clause
    written for the DM channel, and is not logged. *)
Lemma forbidden_embed_send
      (settings : Settings) (ctx : ApplicationContext) (message : str)
      (user : option Member) (w : World) (mod_channel dm : Channel) (w2 : World)
      (detail : str) :
  session_closes settings ctx w mod_channel dm w2 ->
  let embed := build_embed ctx (sanitize_message message) user (images w2) (clock w2) in
  faults w2 (length (trace w2)) (Send mod_channel (EmbedOnly embed))
  = Some (Forbidden detail) ->
  exists o,
    trace (snd (report settings ctx message user w))
    = trace w2 ++ [(Send mod_channel (EmbedOnly embed), Raised (Forbidden detail));
                   (Respond dm_forbidden_text, o)].
Proof.
  intros Hclose embed Hf.
  rewrite (phase1_failure_is_handled message user Hclose Hf). fold embed.
  cbn [report_handler].
  destruct (perform_cases (Respond dm_forbidden_text)
              (emit w2 [(Send mod_channel (EmbedOnly embed), Raised (Forbidden detail))]))
    as [H|[x H]]; rewrite H; eexists; cbn [snd]; rewrite emit_emit;
    unfold emit, with_trace; cbn [trace]; reflexivity.
Qed.

(** C4. The bot lacks permission in the moderator channel, so the embed
    send raises [discord.Forbidden]: the run logs nothing and answers the
    reporter with the text about DM privacy settings, not with the generic
    failure message. *)
Theorem forbidden_from_moderator_channel :
  let run := report sample_settings sample_ctx (lit "Test report") None
                    (sample_world [Arrives done_message] mod_forbidden) in
  exists before embed detail,
    trace (snd run)
    = before ++ [(Send sample_mod (EmbedOnly embed), Raised (Forbidden detail));
                 (Respond dm_forbidden_text, Returned)]
    /\ only session_call before
    /\ (forall text o, ~ In (LoggerError text, o) (trace (snd run)))
    /\ (forall o, ~ In (Respond generic_error_text, o) (trace (snd run))).
Proof.
  intros run. exists (firstn 5 (trace (snd run))).
  eexists; eexists. split; [vm_compute; reflexivity|].
  split; [vm_compute; reflexivity|].
  split.
  - intros text o H. vm_compute in H.
    repeat (destruct H as [H|H]; [discriminate H|]). exact H.
  - intros o H. vm_compute in H.
    repeat (destruct H as [H|H]; [discriminate H|]). exact H.
Qed.

(** ** Witnesses on sample runs *)

Lemma sanitize_replaces_mentions_witness :
  sanitize_message (lit "ping " ++ lit "@EveryOne" ++ lit " now")
  = sanitize_message (lit "ping ") ++ lit "[at everyone]" ++ sanitize_message (lit " now")
  /\ sanitize_message (lit "all " ++ lit "@HERE" ++ lit "!")
     = sanitize_message (lit "all ") ++ lit "[at here]" ++ sanitize_message (lit "!")
  /\ sanitize_message (lit "mail me at a@here.org") = lit "mail me at a[at here].org"
  /\ sanitize_message (lit "nothing to see") = lit "nothing to see".
Proof.
  destruct sanitize_replaces_mentions as (H1 & H2 & H3 & _).
  split; [apply H1; reflexivity|].
  split; [apply H2; reflexivity|].
  split; [reflexivity|].
  apply H3; apply search_false_occurs; reflexivity.
Defined.

Lemma attachments_are_partitioned_witness :
  iteration sample_ctx sample_dm (sample_world [Arrives mixed_message] no_faults)
  = (Ret Continue,
     mkWorld [] no_faults sample_dm 0
             [(WaitFor, Returned);
              (Send sample_dm
                    (Content (lit "✅ Received 2 images. Send more or type `done` to finish.")),
               Returned)]
             [sample_attachment "valid.png"; sample_attachment "valid.jpg"]).
Proof.
  refine (proj1 (@attachments_are_partitioned sample_ctx sample_dm
                   (sample_world [Arrives mixed_message] no_faults)
                   (log (with_inbox (sample_world [Arrives mixed_message] no_faults) [])
                        WaitFor Returned)
                   mixed_message _ _ _ _)).
  - reflexivity.
  - discriminate.
  - discriminate.
  - reflexivity.
Defined.

Lemma timeout_closes_session_witness :
  collect sample_ctx sample_dm waiting_world
  = (Ret Break,
     mkWorld [] no_faults sample_dm 0
             [(WaitFor, Raised TimeoutError);
              (Send sample_dm (Content times_up_text), Returned)]
             [sample_attachment "first.png"]).
Proof.
  refine (proj1 (proj2 (@timeout_closes_session sample_ctx sample_dm waiting_world
                          (log waiting_world WaitFor (Raised TimeoutError)) _)) _ _).
  - reflexivity.
  - discriminate.
  - reflexivity.
Defined.

Lemma done_closes_session_witness :
  collect sample_ctx sample_dm
          (mkWorld [Arrives done_message; Arrives mixed_message] no_faults sample_dm 0 []
                   [sample_attachment "first.png"])
  = (Ret Break,
     mkWorld [Arrives mixed_message] no_faults sample_dm 0 [(WaitFor, Returned)]
             [sample_attachment "first.png"]).
Proof.
  refine (proj1 (@done_closes_session sample_ctx sample_dm _ _ done_message _ _)).
  - reflexivity.
  - reflexivity.
Defined.

Lemma done_precedes_attachments_witness :
  collect sample_ctx sample_dm (sample_world [Arrives done_with_image] no_faults)
  = (Ret Break, mkWorld [] no_faults sample_dm 0 [(WaitFor, Returned)] []).
Proof.
  refine (proj1 (proj2 (@done_precedes_attachments sample_ctx sample_dm
                          (sample_world [Arrives done_with_image] no_faults)
                          done_with_image [] _ _ _ _ _))).
  - reflexivity.
  - reflexivity.
  - reflexivity.
  - discriminate.
  - reflexivity.
Defined.

Lemma two_phase_delivery_witness :
  exists before embed o1 later,
    trace (snd (report sample_settings sample_ctx (lit "spam from @Everyone") None
                       mixed_then_done))
    = trace mixed_then_done ++ before ++ (Send sample_mod (EmbedOnly embed), o1) :: later
    /\ trace mixed_closed = trace mixed_then_done ++ before
    /\ count_calls (is_phase1 sample_mod) before = 0
    /\ count_calls (is_phase2 sample_mod) before = 0
    /\ hd_error (fields embed)
       = Some (mkField (lit "📝 Content")
                       (sanitize_message (lit "spam from @Everyone")) false)
    /\ hd_error (fields embed)
       = Some (mkField (lit "📝 Content") (lit "spam from [at everyone]") false)
    /\ (forall text,
          hd_error (fields embed) = Some (mkField (lit "📝 Content") text false) ->
          ~ occurs (lit "@everyone") text /\ ~ occurs (lit "@here") text)
    /\ count_calls (is_phase1 sample_mod) later = 0
    /\ count_calls (is_phase2 sample_mod) later <= 1
    /\ (count_calls (is_phase2 sample_mod) later = 1 -> 0 < length (images mixed_closed))
    /\ (o1 = Returned ->
        (forall a e, ~ In (ToFile a, Raised e) later) ->
        0 < length (images mixed_closed) ->
        count_calls (is_phase2 sample_mod) later = 1)
    /\ (forall ch files o,
          In (Send ch (FilesOnly files), o) later ->
          files = map file_of (images mixed_closed)).
Proof.
  apply two_phase_delivery with (dm := sample_dm).
  split; [reflexivity|].
  exists (log mixed_then_done Defer Returned),
         (log (log mixed_then_done Defer Returned) (Respond will_dm_text) Returned).
  split; [reflexivity|]. split; [reflexivity|]. vm_compute. reflexivity.
Defined.

Lemma confirmation_after_delivery_witness :
  exists mod_channel dm w2 before,
    session_closes sample_settings sample_ctx mixed_then_done mod_channel dm w2
    /\ trace w2 = trace mixed_then_done ++ before
    /\ trace mixed_closed
       ++ [(Send sample_mod (EmbedOnly mixed_embed), Returned);
           (ToFile (sample_attachment "valid.png"), Returned);
           (ToFile (sample_attachment "valid.jpg"), Returned);
           (Send sample_mod
                 (FilesOnly [file_of (sample_attachment "valid.png");
                             file_of (sample_attachment "valid.jpg")]), Returned)]
       = before
           ++ (Send mod_channel
                    (EmbedOnly (build_embed sample_ctx
                                            (sanitize_message (lit "spam from @Everyone"))
                                            None (images w2) (clock w2))),
               Returned)
           :: evidence_part mod_channel (images w2)
    /\ Send sample_dm
            (Content (sent_head ++ lit "📎 Included 2 images"))
       = Send dm (Content (sent_text (images w2)))
    /\ (0 < length (images w2) ->
        exists a b, sent_text (images w2) = a ++ str_of_nat (length (images w2)) ++ b).
Proof.
  apply (@confirmation_after_delivery
           sample_settings sample_ctx (lit "spam from @Everyone") None mixed_then_done
           (trace mixed_closed
                  ++ [(Send sample_mod (EmbedOnly mixed_embed), Returned);
                      (ToFile (sample_attachment "valid.png"), Returned);
                      (ToFile (sample_attachment "valid.jpg"), Returned);
                      (Send sample_mod
                            (FilesOnly [file_of (sample_attachment "valid.png");
                                        file_of (sample_attachment "valid.jpg")]),
                       Returned)])
           (Send sample_dm (Content (sent_head ++ lit "📎 Included 2 images")))
           Returned []).
  - vm_compute. reflexivity.
  - reflexivity.
Defined.

(** Counterexample to C7 as the spec words it: on a report without images
    the run delivers, the confirmation is the bare first line, and no digit
    stands in it, so it does not hold the count 0. *)
Lemma confirmation_without_count :
  let run := report sample_settings sample_ctx (lit "Test report") None
                    (sample_world [Arrives done_message] no_faults) in
  fst run = Ret tt
  /\ length (images (snd run)) = 0
  /\ last (trace (snd run)) (Defer, Returned)
     = (Send sample_dm
             (Content (lit "✅ Your report has been sent to the moderators!" ++ nl)),
        Returned)
  /\ is_confirmation (fst (last (trace (snd run)) (Defer, Returned))) = true
  /\ contains (str_of_nat (length (images (snd run))))
              (lit "✅ Your report has been sent to the moderators!" ++ nl) = false
  /\ existsb is_digit (lit "✅ Your report has been sent to the moderators!" ++ nl) = false.
Proof. vm_compute. repeat split. Qed.

(** ** Further sample evaluations *)

Example sanitize_mixed_case :
  sanitize_message (lit "hi @EveryOne and @HERE!") = lit "hi [at everyone] and [at here]!".
Proof. reflexivity. Qed.

Example sanitize_nested_token :
  sanitize_message (lit "@every@everyoneone @h@hereere")
  = lit "@every[at everyone]one @h[at here]ere".
Proof. reflexivity. Qed.

Example filter_samples :
  map (fun f => is_acceptable (sample_attachment f))
      ["a.PNG"; "b.txt"; "c.jpeg"; "gif"; "x.gif.exe"; "evidencepng"]%string
  = [true; false; true; true; false; true].
Proof. reflexivity. Qed.

Example rejected_batch_run :
  let run := report sample_settings sample_ctx (lit "Test report") None
               (sample_world
                  [Arrives (mkMessage sample_reporter sample_dm []
                                      [sample_attachment "a.txt"; sample_attachment "a.pdf"]);
                   Arrives done_message] no_faults) in
  count_calls (fun c => match c with
                        | Send _ (Content t) => str_eqb t invalid_format_text
                        | _ => false
                        end) (trace (snd run)) = 1
  /\ count_calls (is_phase1 sample_mod) (trace (snd run)) = 1
  /\ count_calls (is_phase2 sample_mod) (trace (snd run)) = 0
  /\ images (snd run) = [].
Proof. vm_compute. repeat split. Qed.

(** ** Entry point and [except] clauses *)

Lemma faults_emit (w : World) (l : list (call * outcome)) : faults (emit w l) = faults w.
Proof. reflexivity. Qed.

Lemma trace_emit (w : World) (l : list (call * outcome)) :
  trace (emit w l) = trace w ++ l.
Proof. reflexivity. Qed.

Lemma log_emit_app (w : World) (l : list (call * outcome)) (c : call) (o : outcome) :
  log (emit w l) c o = emit w (l ++ [(c, o)]).
Proof. unfold log, emit, with_trace. simpl. now rewrite app_assoc. Qed.

Lemma perform_returns (c : call) (w : World) (l : list (call * outcome)) :
  faults w (length (trace w) + length l) c = None ->
  perform c (emit w l) = (Ret tt, emit w (l ++ [(c, Returned)])).
Proof.
  intros H. unfold perform. rewrite faults_emit, trace_emit, length_app, H.
  now rewrite log_emit_app.
Qed.

Lemma perform_raises (c : call) (w : World) (l : list (call * outcome)) (e : exn) :
  faults w (length (trace w) + length l) c = Some e ->
  perform c (emit w l) = (Raise e, emit w (l ++ [(c, Raised e)])).
Proof.
  intros H. unfold perform. rewrite faults_emit, trace_emit, length_app, H.
  now rewrite log_emit_app.
Qed.

Lemma perform_outcome (c : call) (w : World) (l : list (call * outcome)) :
  exists o, perform c (emit w l) = (result_of o, emit w (l ++ [(c, o)])).
Proof.
  unfold perform. destruct (faults _ _ c) as [e|].
  - exists (Raised e). now rewrite log_emit_app.
  - exists Returned. now rewrite log_emit_app.
Qed.

Lemma perform_first (c : call) (w : World) :
  faults w (length (trace w)) c = None ->
  perform c w = (Ret tt, emit w [(c, Returned)]).
Proof. intros H. unfold perform. now rewrite H. Qed.

Lemma perform_first_raises (c : call) (w : World) (e : exn) :
  faults w (length (trace w)) c = Some e ->
  perform c w = (Raise e, emit w [(c, Raised e)]).
Proof. intros H. unfold perform. now rewrite H. Qed.

Lemma utils_get_none (channels : list Channel) (id : N) :
  (forall ch, In ch channels -> channel_id ch <> id) -> utils_get channels id = None.
Proof.
  unfold utils_get. induction channels as [|ch channels IH]; intros H; [reflexivity|].
  simpl. destruct (N.eqb_spec (channel_id ch) id) as [E|_].
  - exfalso. apply (H ch); [now left | exact E].
  - apply IH. intros x Hx. apply H. now right.
Qed.

(** X1. When no channel of the guild has the configured id and the defer
    returns, the run answers that the moderator channel was not found and
    does nothing else: no DM channel is opened, nothing is read from the
    inbox, nothing is sent; the result is that of the response. *)
Theorem missing_mod_channel_aborts
        (settings : Settings) (ctx : ApplicationContext) (message : str)
        (user : option Member) (w : World) :
  (forall ch, In ch (guild_channels ctx) -> channel_id ch <> REPORTS settings) ->
  faults w (length (trace w)) Defer = None ->
  exists o,
    report settings ctx message user w
    = (result_of o, emit w [(Defer, Returned); (Respond no_mod_channel_text, o)]).
Proof.
  intros Hnone Hdefer. unfold report, bind.
  rewrite (perform_first _ _ Hdefer), (utils_get_none _ Hnone).
  destruct (perform_outcome (Respond no_mod_channel_text) w [(Defer, Returned)])
    as (o & Ho).
  exists o. exact Ho.
Qed.

(** The run up to the [try]: the defer and the first response return. *)
Lemma report_enters_try
      (settings : Settings) (ctx : ApplicationContext) (message : str)
      (user : option Member) (w : World) (mod_channel : Channel) :
  utils_get (guild_channels ctx) (REPORTS settings) = Some mod_channel ->
  faults w (length (trace w)) Defer = None ->
  faults w (length (trace w) + 1) (Respond will_dm_text) = None ->
  report settings ctx message user w
  = try_except
      (session <- open_session ctx ;;
       match session with
       | (dm_channel, Break) =>
           deliver ctx mod_channel dm_channel (sanitize_message message) user
       | (_, Continue) => ret tt
       end)
      (report_handler ctx)
      (emit w [(Defer, Returned); (Respond will_dm_text, Returned)]).
Proof.
  intros Hget Hdefer Hresp. unfold report. unfold bind at 1.
  rewrite (perform_first _ _ Hdefer), Hget. unfold bind at 1.
  now rewrite perform_returns by exact Hresp.
Qed.

(** X2. When the reporter cannot be written to -- [create_dm] raises
    [discord.Forbidden], or it returns and the prompt does -- the run
    answers with the text about privacy settings right after the refused
    call: nothing is logged, nothing is read, nothing reaches the
    moderators. *)
Theorem dm_refused
        (settings : Settings) (ctx : ApplicationContext) (message : str)
        (user : option Member) (w : World) (mod_channel : Channel) (detail : str) :
  utils_get (guild_channels ctx) (REPORTS settings) = Some mod_channel ->
  faults w (length (trace w)) Defer = None ->
  faults w (length (trace w) + 1) (Respond will_dm_text) = None ->
  (faults w (length (trace w) + 2) (CreateDm (ctx_author ctx)) = Some (Forbidden detail) ->
   exists o,
     report settings ctx message user w
     = (result_of o,
        emit w [(Defer, Returned); (Respond will_dm_text, Returned);
                (CreateDm (ctx_author ctx), Raised (Forbidden detail));
                (Respond dm_forbidden_text, o)]))
  /\
  (faults w (length (trace w) + 2) (CreateDm (ctx_author ctx)) = None ->
   faults w (length (trace w) + 3) (Send (dm_of_author w) (Content prompt_text))
   = Some (Forbidden detail) ->
   exists o,
     report settings ctx message user w
     = (result_of o,
        emit w [(Defer, Returned); (Respond will_dm_text, Returned);
                (CreateDm (ctx_author ctx), Returned);
                (Send (dm_of_author w) (Content prompt_text), Raised (Forbidden detail));
                (Respond dm_forbidden_text, o)])).
Proof.
  intros Hget Hdefer Hresp.
  rewrite (@report_enters_try settings ctx message user w mod_channel Hget Hdefer Hresp).
  unfold try_except, open_session, create_dm. split.
  - intros Hdm. unfold bind.
    rewrite (@perform_raises _ w [(Defer, Returned); (Respond will_dm_text, Returned)]
                             _ Hdm).
    cbn [report_handler app]. apply perform_outcome.
  - intros Hdm Hprompt. unfold bind.
    rewrite (@perform_returns _ w [(Defer, Returned); (Respond will_dm_text, Returned)]
                              Hdm).
    cbn [app]. unfold send.
    change (dm_of_author (emit w _)) with (dm_of_author w).
    rewrite (@perform_raises _ w [(Defer, Returned); (Respond will_dm_text, Returned);
                                  (CreateDm (ctx_author ctx), Returned)] _ Hprompt).
    cbn [report_handler app]. apply perform_outcome.
Qed.

(** X3. When [create_dm] raises anything but [discord.Forbidden], the
    error is logged with the reporter's id and the text of the exception,
    and the reporter gets the generic failure message; nothing else is
    attempted. *)
Theorem unexpected_error_logged
        (settings : Settings) (ctx : ApplicationContext) (message : str)
        (user : option Member) (w : World) (mod_channel : Channel) (e : exn) :
  utils_get (guild_channels ctx) (REPORTS settings) = Some mod_channel ->
  faults w (length (trace w)) Defer = None ->
  faults w (length (trace w) + 1) (Respond will_dm_text) = None ->
  faults w (length (trace w) + 2) (CreateDm (ctx_author ctx)) = Some e ->
  (forall d, e <> Forbidden d) ->
  let text := lit "Error processing report from "
              ++ str_of_N (member_id (ctx_author ctx)) ++ lit ": " ++ str_of_exn e in
  faults w (length (trace w) + 3) (LoggerError text) = None ->
  exists o,
    report settings ctx message user w
    = (result_of o,
       emit w [(Defer, Returned); (Respond will_dm_text, Returned);
               (CreateDm (ctx_author ctx), Raised e);
               (LoggerError text, Returned);
               (Respond generic_error_text, o)]).
Proof.
  intros Hget Hdefer Hresp Hdm Hne text Hlog.
  rewrite (@report_enters_try settings ctx message user w mod_channel Hget Hdefer Hresp).
  unfold try_except, open_session, create_dm, bind.
  rewrite (@perform_raises _ w [(Defer, Returned); (Respond will_dm_text, Returned)]
                           _ Hdm).
  cbn [app].
  assert (Hh : forall w', report_handler ctx e w'
                          = (perform (LoggerError text) ;;
                             perform (Respond generic_error_text)) w').
  { intros w'. destruct e; try reflexivity. now destruct (Hne detail). }
  rewrite Hh. unfold bind.
  rewrite (@perform_returns _ w [(Defer, Returned); (Respond will_dm_text, Returned);
                                (CreateDm (ctx_author ctx), Raised e)] Hlog).
  cbn [app].
  apply perform_outcome.
Qed.

(** ** Evidence loop *)

Lemma next_qualifying_skip (chk : Message -> bool) (m : Message) (rest : list incoming) :
  chk m = false ->
  next_qualifying chk (Arrives m :: rest) = next_qualifying chk rest.
Proof. intros H. simpl. now rewrite H. Qed.

Lemma iteration_skip (ctx : ApplicationContext) (dm : Channel) (w : World)
      (m : Message) (rest : list incoming) :
  inbox w = Arrives m :: rest ->
  check ctx dm m = false ->
  iteration ctx dm w = iteration ctx dm (with_inbox w rest).
Proof.
  intros Hin Hchk. unfold iteration, try_except, bind, wait_for.
  rewrite Hin, next_qualifying_skip by exact Hchk. reflexivity.
Qed.

Lemma while_true_skip (ctx : ApplicationContext) (dm : Channel) (w : World)
      (m : Message) (rest : list incoming) (n : nat) :
  inbox w = Arrives m :: rest ->
  check ctx dm m = false ->
  while_true (S n) (iteration ctx dm) w
  = while_true (S n) (iteration ctx dm) (with_inbox w rest).
Proof.
  intros Hin Hchk. simpl. unfold bind. now rewrite (@iteration_skip ctx dm w m rest Hin Hchk).
Qed.

(** X4. A message of somebody else, or in another channel, or a text
    without attachment that is not [done], does not qualify, and the
    session runs as if it had never arrived. *)
Theorem unqualified_message_ignored
        (ctx : ApplicationContext) (dm : Channel) (w : World) (m : Message)
        (rest : list incoming) :
  inbox w = Arrives m :: rest ->
  member_eqb (author m) (ctx_author ctx) = false
  \/ channel_eqb (channel m) dm = false
  \/ (attachments m = [] /\ lower (content m) <> lit "done") ->
  check ctx dm m = false
  /\ collect ctx dm w = collect ctx dm (with_inbox w rest).
Proof.
  intros Hin Hwhy.
  assert (Hchk : check ctx dm m = false).
  { unfold check. destruct Hwhy as [H|[H|[Ha Hd]]].
    - now rewrite H.
    - rewrite H, andb_false_r. reflexivity.
    - rewrite Ha. change (0 <? length (@nil Attachment)) with false. cbn [orb].
      destruct (str_eqb (lower (content m)) (lit "done")) eqn:E.
      + apply str_eqb_eq in E. contradiction.
      + apply andb_false_r. }
  split; [exact Hchk|].
  unfold collect at 1. rewrite Hin. cbn [length].
  rewrite (@while_true_skip ctx dm w m rest _ Hin Hchk).
  apply collect_any_bound. simpl. lia.
Qed.

Lemma next_qualifying_some (chk : Message -> bool) (i rest : list incoming) (m : Message) :
  next_qualifying chk i = (Some m, rest) ->
  In (Arrives m) i /\ chk m = true /\ incl rest i.
Proof.
  induction i as [|[x|] i IH]; simpl; intros H; try discriminate.
  destruct (chk x) eqn:E.
  - injection H as -> ->. repeat split; [now left | exact E | apply incl_tl, incl_refl].
  - destruct (IH H) as (H1 & H2 & H3).
    repeat split; [now right | exact H2 | now apply incl_tl].
Qed.

Lemma next_qualifying_rest (chk : Message -> bool) (i : list incoming) :
  incl (snd (next_qualifying chk i)) i.
Proof.
  induction i as [|[x|] i IH]; simpl.
  - apply incl_refl.
  - destruct (chk x); simpl; [apply incl_tl, incl_refl | now apply incl_tl].
  - apply incl_tl, incl_refl.
Qed.

Lemma perform_keeps (c : call) (w : World) :
  images (snd (perform c w)) = images w /\ inbox (snd (perform c w)) = inbox w.
Proof. unfold perform. destruct (faults _ _ c); split; reflexivity. Qed.

Lemma on_exception_keeps (dm : Channel) (e : exn) (w : World) :
  images (snd (on_exception dm e w)) = images w
  /\ inbox (snd (on_exception dm e w)) = inbox w.
Proof.
  destruct e; simpl; try (split; reflexivity).
  unfold bind, get_images. destruct (is_nil (images w)); simpl; [split; reflexivity|].
  unfold send.
  destruct (perform_keeps (Send dm (Content times_up_text)) w) as [H1 H2].
  destruct (perform _ w) as [[[]|e] w']; simpl in *; now split.
Qed.

(** What the body of the loop does to the list of images once the wait
    has returned [msg]. *)
Lemma message_pass_images (dm : Channel) (msg : Message) (w : World) :
  let w' := snd (try_except (on_message dm msg) (on_exception dm) w) in
  (images w' = images w \/ images w' = images w ++ valid_images_of (attachments msg))
  /\ inbox w' = inbox w.
Proof.
  cbv zeta. unfold try_except, on_message.
  destruct (str_eqb (lower (content msg)) (lit "done")); [simpl; auto|].
  destruct (is_nil (valid_images_of (attachments msg)) && negb (is_nil (attachments msg))).
  - unfold bind, send.
    destruct (perform_keeps (Send dm (Content invalid_format_text)) w) as [H1 H2].
    destruct (perform _ w) as [[[]|e] w1]; simpl in *; [auto|].
    destruct (on_exception_keeps dm e w1) as [H3 H4].
    rewrite H3, H4. auto.
  - unfold bind, extend_images, send.
    set (w0 := with_images w (images w ++ valid_images_of (attachments msg))).
    destruct (perform_keeps
                (Send dm (Content (received_text
                                     (length (valid_images_of (attachments msg)))))) w0)
      as [H1 H2].
    destruct (perform _ w0) as [[[]|e] w1]; simpl in *; [auto|].
    destruct (on_exception_keeps dm e w1) as [H3 H4].
    rewrite H3, H4. auto.
Qed.

Lemma iteration_images (ctx : ApplicationContext) (dm : Channel) (w : World) :
  let w' := snd (iteration ctx dm w) in
  incl (inbox w') (inbox w)
  /\ (images w' = images w
      \/ exists m, In (Arrives m) (inbox w) /\ check ctx dm m = true
                   /\ images w' = images w ++ valid_images_of (attachments m)).
Proof.
  cbv zeta. unfold iteration.
  assert (Hsplit :
            try_except (msg <- wait_for (check ctx dm) ;; on_message dm msg)
                       (on_exception dm) w
            = match wait_for (check ctx dm) w with
              | (Ret msg, w1) => try_except (on_message dm msg) (on_exception dm) w1
              | (Raise e, w1) => on_exception dm e w1
              end).
  { unfold try_except, bind. now destruct (wait_for (check ctx dm) w) as [[msg|e] w1]. }
  rewrite Hsplit. unfold wait_for.
  pose proof (next_qualifying_rest (check ctx dm) (inbox w)) as Hrest.
  destruct (next_qualifying (check ctx dm) (inbox w)) as [[msg|] rest] eqn:Hq;
    simpl in Hrest.
  - apply next_qualifying_some in Hq as (Hin & Hchk & _).
    destruct (message_pass_images dm msg (log (with_inbox w rest) WaitFor Returned))
      as [Himg Hinbox].
    rewrite Hinbox. split; [exact Hrest|].
    destruct Himg as [Himg|Himg]; rewrite Himg; [now left|].
    right. now exists msg.
  - destruct (on_exception_keeps dm TimeoutError
                (log (with_inbox w rest) WaitFor (Raised TimeoutError))) as [H1 H2].
    rewrite H1, H2. split; [exact Hrest | now left].
Qed.

Lemma while_true_images (ctx : ApplicationContext) (dm : Channel) (n : nat) :
  forall w,
  exists more,
    images (snd (while_true n (iteration ctx dm) w)) = images w ++ more
    /\ forall a, In a more ->
                 is_acceptable a = true
                 /\ exists m, In (Arrives m) (inbox w) /\ check ctx dm m = true
                              /\ In a (attachments m).
Proof.
  induction n as [|n IH]; intros w.
  - exists []. simpl. split; [now rewrite app_nil_r | contradiction].
  - simpl. unfold bind.
    destruct (iteration_images ctx dm w) as [Hincl Himg].
    destruct (iteration ctx dm w) as [[[|]|e] w1]; simpl in Hincl, Himg.
    1,3: (destruct Himg as [Himg|(m & Hm & Hchk & Himg)]; simpl; rewrite Himg;
          [ exists []; split; [now rewrite app_nil_r | contradiction]
          | exists (valid_images_of (attachments m)); split; [reflexivity|];
            intros a Ha; apply filter_In in Ha as [Ha1 Ha2];
            split; [exact Ha2 | now exists m] ]).
    destruct (IH w1) as (more & Hmore & Hprov). rewrite Hmore.
    assert (Hprov' : forall a, In a more ->
                       is_acceptable a = true
                       /\ exists m, In (Arrives m) (inbox w) /\ check ctx dm m = true
                                    /\ In a (attachments m)).
    { intros a Ha. destruct (Hprov a Ha) as (H1 & m & H2 & H3 & H4).
      split; [exact H1|]. exists m. repeat split; auto. }
    destruct Himg as [Himg|(m & Hm & Hchk & Himg)]; rewrite Himg.
    + now exists more.
    + exists (valid_images_of (attachments m) ++ more). rewrite app_assoc.
      split; [reflexivity|]. intros a Ha. apply in_app_or in Ha as [Ha|Ha].
      * apply filter_In in Ha as [Ha1 Ha2]. split; [exact Ha2 | now exists m].
      * now apply Hprov'.
Qed.

(** X5. Whatever arrives and whatever raises, the loop only appends to
    the list of images, and each image it appends passes the filter and
    is an attachment of a message of the inbox that passes [check]. *)
Theorem collected_images_provenance
        (ctx : ApplicationContext) (dm : Channel) (w : World) :
  exists more,
    images (snd (collect ctx dm w)) = images w ++ more
    /\ forall a, In a more ->
                 is_acceptable a = true
                 /\ exists m, In (Arrives m) (inbox w)
                              /\ member_eqb (author m) (ctx_author ctx) = true
                              /\ channel_eqb (channel m) dm = true
                              /\ In a (attachments m).
Proof.
  unfold collect.
  destruct (while_true_images ctx dm (S (length (inbox w))) w) as (more & H1 & H2).
  exists more. split; [exact H1|]. intros a Ha.
  destruct (H2 a Ha) as (Hacc & m & Hm & Hchk & Hatt).
  split; [exact Hacc|]. exists m. unfold check in Hchk.
  apply andb_true_iff in Hchk as [Hchk _]. apply andb_true_iff in Hchk as [Hau Hch].
  now repeat split.
Qed.

Lemma send_works (dm : Channel) (p : payload) (w : World) :
  (forall n q, faults w n (Send dm q) = None) ->
  send dm p w = (Ret tt, log w (Send dm p) Returned).
Proof. intros H. unfold send, perform. now rewrite H. Qed.

(** A session over a DM channel that takes every text, by the shape of
    the inbox (a finite one, which a session always gets through). *)
Lemma working_dm_loop (ctx : ApplicationContext) (dm : Channel) (i : list incoming) :
  forall (n : nat) (w : World),
    inbox w = i ->
    length i < n ->
    (forall k p, faults w k (Send dm p) = None) ->
    exists w',
      while_true n (iteration ctx dm) w = (Ret Break, w')
      /\ images w' = images w ++ gathered (check ctx dm) i.
Proof.
  assert (Hout : forall w n,
             next_qualifying (check ctx dm) (inbox w) = (None, snd (next_qualifying (check ctx dm) (inbox w))) ->
             (forall k p, faults w k (Send dm p) = None) ->
             exists w', while_true (S n) (iteration ctx dm) w = (Ret Break, w')
                        /\ images w' = images w).
  { intros w n Hq Hf. simpl. unfold bind at 1.
    unfold iteration, try_except, bind, wait_for. rewrite Hq.
    cbn [on_exception]. unfold bind, get_images. cbn [images log with_inbox].
    destruct (images w) as [|x xs] eqn:Himgs; cbn [is_nil].
    - eexists. split; [reflexivity|]. simpl. now rewrite Himgs.
    - rewrite send_works by exact Hf.
      eexists. split; [reflexivity|]. simpl. now rewrite Himgs. }
  induction i as [|[m|] rest IH]; intros n w Hin Hlen Hf.
  - destruct n as [|n]; [simpl in Hlen; lia|].
    destruct (Hout w n) as (w' & H1 & H2); [now rewrite Hin | exact Hf |].
    exists w'. split; [exact H1|]. simpl. now rewrite app_nil_r.
  - destruct n as [|n]; [simpl in Hlen; lia|]. simpl in Hlen. cbn [gathered].
    destruct (check ctx dm m) eqn:Hchk.
    + (* the message qualifies *)
      assert (Hw : wait_for (check ctx dm) w
                   = (Ret m, log (with_inbox w rest) WaitFor Returned)).
      { unfold wait_for. rewrite Hin. simpl. now rewrite Hchk. }
      set (w1 := log (with_inbox w rest) WaitFor Returned) in *.
      assert (Hf1 : forall k p, faults w1 k (Send dm p) = None) by exact Hf.
      simpl while_true. unfold bind at 1.
      unfold iteration, try_except, bind. rewrite Hw. unfold on_message.
      destruct (str_eqb (lower (content m)) (lit "done")).
      * exists w1. split; [reflexivity|]. simpl. now rewrite app_nil_r.
      * destruct (is_nil (valid_images_of (attachments m))
                  && negb (is_nil (attachments m))) eqn:Hcond.
        -- unfold bind. rewrite send_works by exact Hf1. unfold ret.
           destruct (IH n (log w1 (Send dm (Content invalid_format_text)) Returned))
             as (w' & H1 & H2); [reflexivity | lia | exact Hf |].
           exists w'. split; [exact H1|]. rewrite H2. simpl images.
           apply andb_true_iff in Hcond as [Hnil _].
           destruct (valid_images_of (attachments m)); [reflexivity | discriminate].
        -- unfold bind, extend_images.
           set (w2 := with_images w1 (images w1 ++ valid_images_of (attachments m))).
           rewrite (@send_works dm _ w2) by exact Hf. unfold ret.
           destruct (IH n (log w2 (Send dm (Content (received_text
                             (length (valid_images_of (attachments m)))))) Returned))
             as (w' & H1 & H2); [reflexivity | lia | exact Hf |].
           exists w'. split; [exact H1|]. rewrite H2. simpl images.
           now rewrite app_assoc.
    + (* it does not: the wait goes on *)
      rewrite (@while_true_skip ctx dm w m rest n Hin Hchk).
      destruct (IH (S n) (with_inbox w rest)) as (w' & H1 & H2);
        [reflexivity | lia | exact Hf |].
      exists w'. split; [exact H1|]. exact H2.
  - destruct n as [|n]; [simpl in Hlen; lia|].
    destruct (Hout w n) as (w' & H1 & H2); [now rewrite Hin | exact Hf |].
    exists w'. split; [exact H1|]. simpl. now rewrite app_nil_r.
Qed.

(** X6. Over a DM channel that takes every text, when the loop is left
    by a [break] the images it has added are the accepted attachments of
    the qualifying messages, message by message in their order, up to the
    first [done] or the first wait that ran out. *)
Theorem working_dm_session
        (ctx : ApplicationContext) (dm : Channel) (w w' : World) :
  (forall k p, faults w k (Send dm p) = None) ->
  collect ctx dm w = (Ret Break, w') ->
  images w' = images w ++ gathered (check ctx dm) (inbox w).
Proof.
  intros Hf Hleft. unfold collect in Hleft.
  destruct (@working_dm_loop ctx dm (inbox w) (S (length (inbox w))) w eq_refl
              (Nat.lt_succ_diag_r _) Hf) as (w'' & Hrun & Himgs).
  rewrite Hrun in Hleft. injection Hleft as <-. exact Himgs.
Qed.

(** X11. The [try] of the loop also covers the acknowledgement: when that
    send times out it is taken for the end of the wait.  The images of the
    message stay collected, the time-out notice is sent and the loop is
    left. *)
Theorem ack_timeout_closes_session
        (ctx : ApplicationContext) (dm : Channel) (w w1 : World) (msg : Message) :
  wait_for (check ctx dm) w = (Ret msg, w1) ->
  lower (content msg) <> lit "done" ->
  let accepted := filter is_acceptable (attachments msg) in
  let ack := Send dm (Content (received_text (length accepted))) in
  accepted <> [] ->
  faults w1 (length (trace w1)) ack = Some TimeoutError ->
  faults w1 (length (trace w1) + 1) (Send dm (Content times_up_text)) = None ->
  collect ctx dm w
  = (Ret Break,
     emit (with_images w1 (images w ++ accepted))
          [(ack, Raised TimeoutError);
           (Send dm (Content times_up_text), Returned)]).
Proof.
  intros Hw Hd. cbv zeta.
  remember (filter is_acceptable (attachments msg)) as acc eqn:Hacc.
  intros Hne Hack Hnotice.
  assert (Himg : images w1 = images w).
  { apply wait_for_returns in Hw as (rest & _ & ->). reflexivity. }
  apply collect_break.
  unfold iteration, on_message, try_except, bind. rewrite Hw.
  destruct (str_eqb (lower (content msg)) (lit "done")) eqn:E;
    [apply str_eqb_eq in E; contradiction|].
  unfold valid_images_of. rewrite <- Hacc.
  destruct acc as [|v vs]; [contradiction|]. cbn [is_nil andb].
  unfold extend_images, send.
  set (w2 := with_images w1 (images w1 ++ v :: vs)).
  rewrite (@perform_first_raises _ w2 TimeoutError Hack).
  cbn [on_exception]. unfold bind, get_images.
  change (images (emit w2 _)) with (images w1 ++ v :: vs).
  assert (Hnn : is_nil (images w1 ++ v :: vs) = false)
    by (destruct (images w1); reflexivity).
  rewrite Hnn. unfold send.
  rewrite (@perform_returns _ w2 [(Send dm (Content (received_text (length (v :: vs)))),
                                  Raised TimeoutError)] Hnotice).
  unfold ret. subst w2. now rewrite Himg.
Qed.

(** ** Whole runs *)

Lemma open_session_collects (ctx : ApplicationContext) (wb w2 : World) (dm : Channel) :
  open_session ctx wb = (Ret (dm, Break), w2) ->
  exists w0,
    images w0 = [] /\ inbox w0 = inbox wb /\ collect ctx dm w0 = (Ret Break, w2).
Proof.
  unfold open_session, create_dm. unfold bind at 1. unfold bind at 1.
  destruct (perform_keeps (CreateDm (ctx_author ctx)) wb) as [_ Hi1].
  destruct (perform (CreateDm (ctx_author ctx)) wb) as [[[]|x] w1]; [|discriminate].
  simpl in Hi1. unfold bind at 1. unfold send.
  destruct (perform_keeps (Send (dm_of_author w1) (Content prompt_text)) w1) as [_ Hi2].
  destruct (perform _ w1) as [[[]|x] w3]; [|discriminate].
  simpl in Hi2. unfold bind at 1. unfold set_images. unfold bind.
  destruct (collect ctx (dm_of_author w1) (with_images w3 [])) as [[c|x] w4] eqn:Hc;
    [|discriminate].
  unfold ret. intros H. injection H as <- -> <-.
  exists (with_images w3 []). repeat split; [|exact Hc].
  simpl. congruence.
Qed.

Lemma session_closes_images
      (settings : Settings) (ctx : ApplicationContext) (w : World)
      (mod_channel dm : Channel) (w2 : World) :
  session_closes settings ctx w mod_channel dm w2 ->
  forall a, In a (images w2) ->
            is_acceptable a = true
            /\ exists m, In (Arrives m) (inbox w) /\ check ctx dm m = true
                         /\ In a (attachments m).
Proof.
  intros (_ & wa & wb & Hd & Hr & Ho) a Ha.
  assert (Hinbox : inbox wb = inbox w).
  { pose proof (perform_keeps Defer w) as [_ H1]. rewrite Hd in H1.
    pose proof (perform_keeps (Respond will_dm_text) wa) as [_ H2]. rewrite Hr in H2.
    simpl in H1, H2. congruence. }
  apply open_session_collects in Ho as (w0 & Himg & Hin & Hc).
  unfold collect in Hc.
  destruct (while_true_images ctx dm (S (length (inbox w0))) w0) as (more & H1 & H2).
  rewrite Hc, Himg in H1. simpl in H1. rewrite H1 in Ha.
  destruct (H2 a Ha) as (Hacc & m & Hm & Hrest).
  split; [exact Hacc|]. exists m. split; [congruence | exact Hrest].
Qed.

Lemma files_not_session (ch : Channel) (files : list File) (o : outcome)
      (t : list (call * outcome)) :
  only session_call t -> ~ In (Send ch (FilesOnly files), o) t.
Proof.
  intros Ht Hin. pose proof (@only_in session_call t _ o Ht Hin) as H. discriminate.
Qed.

Lemma files_not_quiet (ch : Channel) (files : list File) (o : outcome)
      (t : list (call * outcome)) :
  only quiet_call t -> ~ In (Send ch (FilesOnly files), o) t.
Proof.
  intros Ht Hin. pose proof (@only_in quiet_call t _ o Ht Hin) as H. discriminate.
Qed.

(** Where a send of files stands in a run: the session had closed, the
    embed had been sent and had returned, and the files are those of the
    collected images. *)
Lemma files_send_context
      (settings : Settings) (ctx : ApplicationContext) (message : str)
      (user : option Member) (w : World) :
  exists added,
    trace (snd (report settings ctx message user w)) = trace w ++ added
    /\ forall ch files o,
        In (Send ch (FilesOnly files), o) added ->
        exists mod_channel dm w2 before later,
          session_closes settings ctx w mod_channel dm w2
          /\ added
             = before
                 ++ (Send mod_channel
                          (EmbedOnly (build_embed ctx (sanitize_message message) user
                                                  (images w2) (clock w2))),
                     Returned) :: later
          /\ In (Send ch (FilesOnly files), o) later
          /\ ch = mod_channel
          /\ images w2 <> []
          /\ files = map file_of (images w2).
Proof.
  destruct (report_run settings ctx message user w)
    as [(mod_channel & dm & w2 & Hclose) | (added & Hadded & Hquiet)].
  2:{ exists added. split; [exact Hadded|]. intros ch files o Hin.
      now apply files_not_quiet in Hin. }
  destruct (session_closes_trace Hclose) as (before & Hbefore & Honly).
  destruct (deliver_run ctx mod_channel dm (sanitize_message message) user w2)
    as (added & Hrun & Hd).
  exists (before ++ added). split.
  { rewrite (report_after_close message user Hclose), Hrun.
    unfold emit, with_trace. cbn [trace]. now rewrite Hbefore, app_assoc. }
  intros ch files o Hin. exists mod_channel, dm, w2, before.
  apply in_app_or in Hin as [Hin|Hin]; [now apply files_not_session in Hin|].
  set (embed := build_embed ctx (sanitize_message message) user (images w2) (clock w2)) in *.
  destruct Hd as [e hs Hhs | converted a rest e hs Hsplit Hhs | e hs Hne Hhs | o' hs Hhs].
  - exfalso. destruct Hin as [Hin|Hin]; [discriminate|].
    now apply files_not_in_handler in Hin.
  - exfalso. destruct Hin as [Hin|Hin]; [discriminate|].
    apply in_app_or in Hin as [Hin|[Hin|Hin]].
    + now apply files_not_in_to_files in Hin.
    + discriminate.
    + now apply files_not_in_handler in Hin.
  - eexists. split; [exact Hclose|]. split; [reflexivity|].
    destruct Hin as [Hin|Hin]; [discriminate|].
    split; [exact Hin|].
    apply in_app_or in Hin as [Hin|[Hin|Hin]].
    + now apply files_not_in_to_files in Hin.
    + injection Hin as <- <- _. now repeat split.
    + now apply files_not_in_handler in Hin.
  - eexists. split; [exact Hclose|]. split; [reflexivity|].
    destruct Hin as [Hin|Hin]; [discriminate|].
    split; [exact Hin|].
    unfold evidence_part in Hin. destruct (images w2) as [|i imgs] eqn:Himgs;
      cbn [is_nil] in Hin.
    + exfalso. destruct Hin as [Hin|Hin]; [discriminate|].
      now apply files_not_in_handler in Hin.
    + apply in_app_or in Hin as [Hin|[Hin|Hin]].
      * apply in_app_or in Hin as [Hin|[Hin|[]]].
        -- now apply files_not_in_to_files in Hin.
        -- injection Hin as <- <- _. now repeat split.
      * discriminate.
      * now apply files_not_in_handler in Hin.
Qed.

(** X7. In every run, whatever raises, the files of a send of files are
    those of attachments that pass the filter and that the reporter sent
    in the DM channel. *)
Theorem only_accepted_files_are_sent
        (settings : Settings) (ctx : ApplicationContext) (message : str)
        (user : option Member) (w : World) :
  exists added,
    trace (snd (report settings ctx message user w)) = trace w ++ added
    /\ forall ch files o f,
        In (Send ch (FilesOnly files), o) added ->
        In f files ->
        exists a m,
          f = file_of a
          /\ is_acceptable a = true
          /\ In (Arrives m) (inbox w)
          /\ member_eqb (author m) (ctx_author ctx) = true
          /\ In a (attachments m).
Proof.
  destruct (files_send_context settings ctx message user w) as (added & Htrace & Hctx).
  exists added. split; [exact Htrace|]. intros ch files o f Hin Hf.
  destruct (Hctx ch files o Hin)
    as (mod_channel & dm & w2 & before & later & Hclose & _ & _ & _ & _ & ->).
  apply in_map_iff in Hf as (a & <- & Ha).
  destruct (session_closes_images Hclose a Ha) as (Hacc & m & Hm & Hchk & Hatt).
  exists a, m. unfold check in Hchk.
  apply andb_true_iff in Hchk as [Hchk _]. apply andb_true_iff in Hchk as [Hau _].
  now repeat split.
Qed.

Lemma build_embed_attachments (ctx : ApplicationContext) (text : str)
      (user : option Member) (imgs : list Attachment) (now : N) :
  imgs <> [] ->
  last (fields (build_embed ctx text user imgs now)) (mkField [] [] true)
  = mkField (lit "📎 Attachments") (attached_text (length imgs)) false.
Proof.
  intros Hne. destruct imgs as [|i imgs]; [contradiction|].
  unfold build_embed. cbn [fields is_nil]. rewrite app_assoc.
  apply last_last.
Qed.

(** X8. In every run, a send of files comes after the send of the embed
    has returned, to the same channel, and the last field of that embed
    is the attachments field, which announces the number of files sent. *)
Theorem embed_announces_files
        (settings : Settings) (ctx : ApplicationContext) (message : str)
        (user : option Member) (w : World) :
  exists added,
    trace (snd (report settings ctx message user w)) = trace w ++ added
    /\ forall ch files o,
        In (Send ch (FilesOnly files), o) added ->
        exists before embed later,
          added = before ++ (Send ch (EmbedOnly embed), Returned) :: later
          /\ In (Send ch (FilesOnly files), o) later
          /\ last (fields embed) (mkField [] [] true)
             = mkField (lit "📎 Attachments") (attached_text (length files)) false.
Proof.
  destruct (files_send_context settings ctx message user w) as (added & Htrace & Hctx).
  exists added. split; [exact Htrace|]. intros ch files o Hin.
  destruct (Hctx ch files o Hin)
    as (mod_channel & dm & w2 & before & later & _ & Hadded & Hlater & -> & Hne & ->).
  exists before, (build_embed ctx (sanitize_message message) user (images w2) (clock w2)),
    later.
  split; [exact Hadded|]. split; [exact Hlater|].
  rewrite length_map. now apply build_embed_attachments.
Qed.

Lemma session_not_sends (c : call) :
  session_call c = true -> is_embed_send c = false /\ is_files_send c = false.
Proof. destruct c as [| | |ch [| |]| | |]; simpl; intros H; split; congruence. Qed.

Lemma quiet_not_sends (c : call) :
  quiet_call c = true -> is_embed_send c = false /\ is_files_send c = false.
Proof.
  unfold quiet_call. intros H. apply orb_true_iff in H as [H|H].
  - now apply session_not_sends.
  - destruct c; simpl in *; split; congruence.
Qed.

Lemma count_sends_quiet (t : list (call * outcome)) :
  only quiet_call t ->
  count_calls is_embed_send t = 0 /\ count_calls is_files_send t = 0.
Proof.
  intros H. split; apply count_calls_only with (q := quiet_call); try exact H;
    intros c Hc; now apply quiet_not_sends.
Qed.

Lemma count_sends_handler (t : list (call * outcome)) :
  only handler_call t ->
  count_calls is_embed_send t = 0 /\ count_calls is_files_send t = 0.
Proof.
  intros H. apply count_sends_quiet. apply only_weaken with (p := handler_call); [|exact H].
  intros c Hc. unfold quiet_call. rewrite Hc. apply orb_true_r.
Qed.

Lemma count_sends_to_files (imgs : list Attachment) :
  count_calls is_embed_send (map (fun a => (ToFile a, Returned)) imgs) = 0
  /\ count_calls is_files_send (map (fun a => (ToFile a, Returned)) imgs) = 0.
Proof.
  split; apply count_calls_only with (q := to_file_call);
    try apply only_to_file_map; intros c Hc; destruct c; simpl in *; congruence.
Qed.

Ltac count_sends :=
  repeat first [rewrite count_calls_cons | rewrite count_calls_app];
  rewrite ?count_calls_nil.

Lemma delivery_trace_sends (mod_channel dm : Channel) (embed : Embed)
      (imgs : list Attachment) (added : list (call * outcome)) :
  delivery_trace mod_channel dm embed imgs added ->
  count_calls is_embed_send added = 1 /\ count_calls is_files_send added <= 1.
Proof.
  intros [e hs Hhs | converted a rest e hs Hsplit Hhs | e hs Hne Hhs | o hs Hhs];
    destruct (count_sends_handler Hhs) as [Hh1 Hh2].
  - count_sends. rewrite Hh1, Hh2. simpl. lia.
  - destruct (count_sends_to_files converted) as [Ht1 Ht2].
    count_sends. rewrite Ht1, Ht2, Hh1, Hh2. simpl. lia.
  - destruct (count_sends_to_files imgs) as [Ht1 Ht2].
    count_sends. rewrite Ht1, Ht2, Hh1, Hh2. simpl. lia.
  - unfold evidence_part. destruct (is_nil imgs).
    + simpl app. count_sends. rewrite Hh1, Hh2. simpl. lia.
    + destruct (count_sends_to_files imgs) as [Ht1 Ht2].
      count_sends. rewrite Ht1, Ht2, Hh1, Hh2. simpl. lia.
Qed.

(** X12. In every run, whatever arrives and whatever raises, at most one
    embed is sent and at most one bundle of files, to any channel, and no
    files without an embed. *)
Theorem at_most_one_delivery
        (settings : Settings) (ctx : ApplicationContext) (message : str)
        (user : option Member) (w : World) :
  exists added,
    trace (snd (report settings ctx message user w)) = trace w ++ added
    /\ count_calls is_embed_send added <= 1
    /\ count_calls is_files_send added <= count_calls is_embed_send added.
Proof.
  destruct (report_run settings ctx message user w)
    as [(mod_channel & dm & w2 & Hclose) | (added & Hadded & Hquiet)].
  2:{ exists added. destruct (count_sends_quiet Hquiet) as [H1 H2].
      split; [exact Hadded|]. lia. }
  destruct (session_closes_trace Hclose) as (before & Hbefore & Honly).
  destruct (deliver_run ctx mod_channel dm (sanitize_message message) user w2)
    as (added & Hrun & Hd).
  exists (before ++ added). split.
  { rewrite (report_after_close message user Hclose), Hrun.
    unfold emit, with_trace. cbn [trace]. now rewrite Hbefore, app_assoc. }
  apply delivery_trace_sends in Hd as [Hd1 Hd2].
  assert (Hb : count_calls is_embed_send before = 0
               /\ count_calls is_files_send before = 0).
  { apply count_sends_quiet. apply only_weaken with (p := session_call); [|exact Honly].
    intros c Hc. unfold quiet_call. now rewrite Hc. }
  destruct Hb as [Hb1 Hb2]. rewrite !count_calls_app. lia.
Qed.

(** * Further properties *)

(** ** Sanitizer *)

(** X9. Whatever the message, the sanitized text holds neither mass
    mention, in any case. *)
Theorem sanitized_has_no_mention (s : str) :
  ~ occurs (lit "@everyone") (sanitize_message s)
  /\ ~ occurs (lit "@here") (sanitize_message s).
Proof.
  destruct (sanitize_clean s) as [H1 H2].
  split; now apply match_free_iff.
Qed.

Lemma sanitize_spec_length (n : nat) :
  forall s, length s = n ->
            length s <= length (sanitize_spec s)
            /\ 5 * length (sanitize_spec s) <= 9 * length s.
Proof.
  induction n as [n IH] using lt_wf_ind. intros s Hn.
  destruct s as [|c s]; [simpl; lia|].
  rewrite sanitize_spec_cons.
  destruct (Re.match_here at_everyone (c :: s)) eqn:H1.
  - apply match_here_token in H1 as [Hl _].
    apply (f_equal (@length ascii)) in Hl. rewrite !lower_length in Hl.
    rewrite length_firstn in Hl. change (length at_everyone) with 9 in Hl.
    destruct (IH (length (skipn 8 s))) with (s := skipn 8 s) as [Ha Hb];
      [subst n; rewrite length_skipn; simpl; lia | reflexivity |].
    rewrite length_app, length_skipn in *. change (length bracket_everyone) with 13.
    simpl length in *. lia.
  - destruct (Re.match_here at_here (c :: s)) eqn:H2.
    + apply match_here_token in H2 as [Hl _].
      apply (f_equal (@length ascii)) in Hl. rewrite !lower_length in Hl.
      rewrite length_firstn in Hl. change (length at_here) with 5 in Hl.
      destruct (IH (length (skipn 4 s))) with (s := skipn 4 s) as [Ha Hb];
        [subst n; rewrite length_skipn; simpl; lia | reflexivity |].
      rewrite length_app, length_skipn in *. change (length bracket_here) with 9.
      simpl length in *. lia.
    + destruct (IH (length s)) with (s := s) as [Ha Hb];
        [subst n; simpl; lia | reflexivity |].
      simpl length. lia.
Qed.

(** X10. Sanitizing never shortens a message, and lengthens it at most in
    the proportion of [[at here]] to [@here], nine to five. *)
Theorem sanitize_length_bounds (s : str) :
  length s <= length (sanitize_message s)
  /\ 5 * length (sanitize_message s) <= 9 * length s.
Proof.
  rewrite sanitize_refines_spec. now apply sanitize_spec_length with (n := length s).
Qed.

(** ** Attachment filter *)

Lemma endswith_app (pre s suffix : str) :
  length suffix <= length s ->
  endswith (pre ++ s) suffix = endswith s suffix.
Proof.
  intros Hlen. unfold endswith. rewrite length_app.
  replace (length suffix <=? length pre + length s) with true
    by (symmetry; apply Nat.leb_le; lia).
  replace (length suffix <=? length s) with true by (symmetry; now apply Nat.leb_le).
  rewrite skipn_app.
  rewrite skipn_all2 by lia.
  replace (length pre + length s - length suffix - length pre)
    with (length s - length suffix) by lia.
  reflexivity.
Qed.

Lemma is_acceptable_lower (a b : Attachment) :
  lower (filename a) = lower (filename b) -> is_acceptable a = is_acceptable b.
Proof. intros H. unfold is_acceptable. now rewrite H. Qed.

(** X14. The filter reads the name only: size and content play no part.
    Of the name it reads the last four characters, whatever their case,
    so what stands before them, a dot or none, changes nothing; and a
    name of fewer than three characters is refused. *)
Theorem filter_reads_name_end :
  (forall a b : Attachment,
      lower (filename a) = lower (filename b) -> is_acceptable a = is_acceptable b)
  /\
  (forall (pre tail : str) (sz sz' : N) (u u' : str),
      4 <= length tail ->
      is_acceptable (mkAttachment (pre ++ tail) sz u)
      = is_acceptable (mkAttachment tail sz' u'))
  /\
  (forall a : Attachment, length (filename a) < 3 -> is_acceptable a = false).
Proof.
  split; [exact is_acceptable_lower|]. split.
  - intros pre tail sz sz' u u' Hlen. unfold is_acceptable. cbn [filename].
    rewrite lower_app.
    assert (Hl : 4 <= length (lower tail)) by now rewrite lower_length.
    unfold allowed_extensions. cbn [existsb].
    rewrite !endswith_app by (simpl; lia). reflexivity.
  - intros a Hlen. unfold is_acceptable.
    assert (H : forall ext, 3 <= length ext -> endswith (lower (filename a)) ext = false).
    { intros ext Hext. unfold endswith. rewrite lower_length.
      replace (length ext <=? length (filename a)) with false; [reflexivity|].
      symmetry. apply Nat.leb_gt. lia. }
    unfold allowed_extensions. cbn [existsb].
    rewrite !H by (simpl; lia). reflexivity.
Qed.

(** ** Witnesses of the further properties *)

Lemma missing_mod_channel_aborts_witness :
  exists o,
    report sample_settings lonely_ctx (lit "Test report") None
           (sample_world [Arrives done_message] no_faults)
    = (result_of o,
       emit (sample_world [Arrives done_message] no_faults)
            [(Defer, Returned); (Respond no_mod_channel_text, o)]).
Proof.
  apply missing_mod_channel_aborts.
  - intros ch [<-|[]]. discriminate.
  - reflexivity.
Defined.

Lemma dm_refused_witness :
  exists o,
    report sample_settings sample_ctx (lit "Test report") None
           (sample_world [Arrives done_message] dm_closed)
    = (result_of o,
       emit (sample_world [Arrives done_message] dm_closed)
            [(Defer, Returned); (Respond will_dm_text, Returned);
             (CreateDm sample_reporter, Returned);
             (Send sample_dm (Content prompt_text),
              Raised (Forbidden (lit "403 Forbidden (error code: 50007)")));
             (Respond dm_forbidden_text, o)]).
Proof.
  refine (proj2 (@dm_refused sample_settings sample_ctx (lit "Test report") None
                   (sample_world [Arrives done_message] dm_closed) sample_mod
                   (lit "403 Forbidden (error code: 50007)") _ _ _) _ _);
    reflexivity.
Defined.

Lemma unexpected_error_logged_witness :
  exists o,
    report sample_settings sample_ctx (lit "Test report") None
           (sample_world [] create_dm_fails)
    = (result_of o,
       emit (sample_world [] create_dm_fails)
            [(Defer, Returned); (Respond will_dm_text, Returned);
             (CreateDm sample_reporter, Raised (Failure (lit "Unexpected error")));
             (LoggerError (lit "Error processing report from 12345: Unexpected error"),
              Returned);
             (Respond generic_error_text, o)]).
Proof.
  refine (@unexpected_error_logged sample_settings sample_ctx (lit "Test report") None
            (sample_world [] create_dm_fails) sample_mod
            (Failure (lit "Unexpected error")) _ _ _ _ _ _);
    try reflexivity.
  intros d. discriminate.
Defined.

Lemma unqualified_message_ignored_witness :
  check sample_ctx sample_dm stranger_message = false
  /\ collect sample_ctx sample_dm
             (sample_world [Arrives stranger_message; Arrives mixed_message] no_faults)
     = collect sample_ctx sample_dm (sample_world [Arrives mixed_message] no_faults).
Proof.
  refine (@unqualified_message_ignored sample_ctx sample_dm
            (sample_world [Arrives stranger_message; Arrives mixed_message] no_faults)
            stranger_message [Arrives mixed_message] _ _).
  - reflexivity.
  - left. reflexivity.
Defined.

Lemma collected_images_provenance_witness :
  is_acceptable (sample_attachment "valid.jpg") = true
  /\ exists m,
      In (Arrives m) [Arrives chat_message; Arrives mixed_message; Arrives done_message]
      /\ member_eqb (author m) sample_reporter = true
      /\ channel_eqb (channel m) sample_dm = true
      /\ In (sample_attachment "valid.jpg") (attachments m).
Proof.
  destruct (collected_images_provenance sample_ctx sample_dm
              (sample_world [Arrives chat_message; Arrives mixed_message;
                             Arrives done_message] no_faults))
    as (more & Hmore & Hprov).
  apply Hprov. vm_compute in Hmore. rewrite <- Hmore. right. left. reflexivity.
Defined.

Lemma working_dm_session_witness :
  images (mkWorld [Arrives mixed_message] no_faults sample_dm 0
                  [(WaitFor, Returned);
                   (Send sample_dm (Content (received_text 2)), Returned);
                   (WaitFor, Returned)]
                  [sample_attachment "valid.png"; sample_attachment "valid.jpg"])
  = [] ++ [sample_attachment "valid.png"; sample_attachment "valid.jpg"].
Proof.
  refine (@working_dm_session sample_ctx sample_dm
            (sample_world [Arrives chat_message; Arrives mixed_message;
                           Arrives done_message; Arrives mixed_message] no_faults)
            _ _ _).
  - reflexivity.
  - reflexivity.
Defined.

Lemma ack_timeout_closes_session_witness :
  collect sample_ctx sample_dm (sample_world [Arrives mixed_message] ack_times_out)
  = (Ret Break,
     mkWorld [] ack_times_out sample_dm 0
             [(WaitFor, Returned);
              (Send sample_dm (Content (received_text 2)), Raised TimeoutError);
              (Send sample_dm (Content times_up_text), Returned)]
             [sample_attachment "valid.png"; sample_attachment "valid.jpg"]).
Proof.
  refine (@ack_timeout_closes_session sample_ctx sample_dm
            (sample_world [Arrives mixed_message] ack_times_out)
            (log (with_inbox (sample_world [Arrives mixed_message] ack_times_out) [])
                 WaitFor Returned)
            mixed_message _ _ _ _ _).
  - reflexivity.
  - discriminate.
  - discriminate.
  - reflexivity.
  - reflexivity.
Defined.

Lemma only_accepted_files_are_sent_witness :
  exists a m,
    file_of (sample_attachment "valid.png") = file_of a
    /\ is_acceptable a = true
    /\ In (Arrives m) [Arrives mixed_message; Arrives done_message]
    /\ member_eqb (author m) sample_reporter = true
    /\ In a (attachments m).
Proof.
  destruct (only_accepted_files_are_sent sample_settings sample_ctx
              (lit "spam from @Everyone") None mixed_then_done)
    as (added & Htrace & Hfiles).
  apply (Hfiles sample_mod
                [file_of (sample_attachment "valid.png");
                 file_of (sample_attachment "valid.jpg")] Returned).
  - vm_compute in Htrace. rewrite <- Htrace.
    do 10 right. left. reflexivity.
  - left. reflexivity.
Defined.

Lemma embed_announces_files_witness :
  exists before embed later,
    trace (snd (report sample_settings sample_ctx (lit "spam from @Everyone") None
                       mixed_then_done))
    = before ++ (Send sample_mod (EmbedOnly embed), Returned) :: later
    /\ In (Send sample_mod
                (FilesOnly [file_of (sample_attachment "valid.png");
                            file_of (sample_attachment "valid.jpg")]), Returned) later
    /\ last (fields embed) (mkField [] [] true)
       = mkField (lit "📎 Attachments") (lit "2 images attached") false.
Proof.
  destruct (embed_announces_files sample_settings sample_ctx
              (lit "spam from @Everyone") None mixed_then_done)
    as (added & Htrace & Hfiles).
  change (trace mixed_then_done ++ added) with added in Htrace.
  rewrite Htrace.
  apply (Hfiles sample_mod
                [file_of (sample_attachment "valid.png");
                 file_of (sample_attachment "valid.jpg")] Returned).
  rewrite <- Htrace. vm_compute. do 10 right. left. reflexivity.
Defined.

Lemma filter_reads_name_end_witness :
  is_acceptable (sample_attachment "Holiday.JPEG")
  = is_acceptable (mkAttachment (lit "holiday.jpeg") 1 [])
  /\ is_acceptable (mkAttachment (lit "report" ++ lit ".png") 10 [])
     = is_acceptable (mkAttachment (lit ".png") 20 (lit "elsewhere"))
  /\ is_acceptable (mkAttachment (lit "pn") 10 []) = false.
Proof.
  destruct filter_reads_name_end as (H1 & H2 & H3).
  split; [apply H1; reflexivity|].
  split; [apply H2; simpl; lia|].
  apply H3. simpl. lia.
Defined.
